(** * AudioCall: the call signaling and negotiation engine

    A shallow embedding of the [AudioCall] React component
    (src/components/ChatRequests.tsx, lines 302-620): [initializeCall],
    [sendSignalingMessage], [subscribeToSignaling], [toggleMute],
    [handleEndCall], [cleanup] and the handlers the component installs on
    its peer connection.

    How the component is represented:
    - the values held by [useState] and [useRef], the objects living in the
      browser (media streams, peer connections) and the progress of the one
      [initializeCall] invocation form a [World];
    - a function of the component closes over the [useState] values of the
      render that created it, so every such function takes the
      [ReactState] it captured; the [useRef] cells are read from the
      [World], since a ref is one shared mutable cell;
    - everything the component does to the outside (console, toasts,
      signaling sends, calls on the peer connection, [onClose]) is emitted
      as an [Effect], in program order;
    - a rejected promise or a thrown exception is the [None] outcome of the
      monad [M]; [tryCatch] is the source's [try]/[catch];
    - [initializeCall] is cut at the three [await]s that wait for the
      outside world (the microphone, the subscription, the settle delay):
      it resumes on the matching [Event]. An [await] on a method of the
      connection or on [channel.send] completes within the event that
      reaches it;
    - the peer connection is an external capability: its behaviour is a
      parameter ([PcOps]) of the whole development. *)

From Stdlib Require Import Ascii.
From stdpp Require Import base list strings pretty.

Open Scope string_scope.
Open Scope list_scope.

(** ** Data *)

Inductive TrackKind := AudioTrack | VideoTrack.

(** A [MediaStreamTrack]: [stopped] is [readyState === "ended"]. *)
Record Track := mkTrack { kind : TrackKind; enabled : bool; stopped : bool }.

(** An [RTCSessionDescriptionInit]. *)
Record Description := mkDescription { dtype : string; sdp : string }.

Definition Candidate := string.

(** The [message] member of a signaling payload, by its [type]. A type
    other than the four the handler tests for is [OtherMessage]. *)
Inductive Message :=
| Offer (offer : Description)
| Answer (answer : Description)
| IceCandidate (candidate : Candidate)
| EndCall
| OtherMessage (type : string).

Definition messageType (m : Message) : string :=
  match m with
  | Offer _ => "offer"
  | Answer _ => "answer"
  | IceCandidate _ => "ice-candidate"
  | EndCall => "end-call"
  | OtherMessage t => t
  end.

(** The broadcast payload. The source leaves it untyped and reads [to] and
    [message] only; [extra] holds whatever further properties the object
    carries on the wire. *)
Record Payload := mkPayload {
  from : string;
  to : string;
  message : Message;
  extra : list (string * string)
}.

(** [pc.iceConnectionState]. *)
Inductive IceConnectionState :=
| IceNew | IceChecking | IceConnected | IceCompleted
| IceFailed | IceDisconnected | IceClosed.

Inductive CallStatus := Connecting | Connected | Ended.

Definition sameStatus (a b : CallStatus) : bool :=
  match a, b with
  | Connecting, Connecting | Connected, Connected | Ended, Ended => true
  | _, _ => false
  end.

(** The two [toast.error] texts and the one [toast.success] text. *)
Inductive Toast :=
| ToastConnectionLost      (* toast.error, line 430 *)
| ToastMicrophoneDenied    (* toast.error, line 454 *)
| ToastCallConnected.      (* toast.success, line 410 *)

Inductive PcCall :=
| AddTrack (t : Track)
| CreateOffer
| CreateAnswer
| SetLocalDescription (d : Description)
| SetRemoteDescription (d : Description)
| AddIceCandidate (c : Candidate)
| Close.

Inductive Effect :=
| ConsoleLog (text : string)
| ConsoleError (text : string)
| ShowToast (t : Toast)
| GetUserMedia
| NewPeerConnection (p : nat)
| PcInvoke (p : nat) (c : PcCall) (ok : bool)
| TrackStop (stream index : nat)
| Subscribe (topic : string)
| ChannelSend (topic : string) (pl : Payload) (ok : bool)
| RemoveChannel (topic : string)
| SetTimeout (ms : nat)
| SetInterval (timer ms : nat)
| ClearInterval (timer : nat)
| OnClose.

(** The component's props ([isOpen] and [onClose] are an event and an
    effect). *)
Record Props := mkProps {
  chatId : string;
  currentUserId : string;
  otherUserId : string;
  otherUserName : string;
  isInitiator : bool
}.

(** The [useState] values of one render. Streams and connections are
    references (indices) into the browser's objects. *)
Record ReactState := mkReactState {
  localStream : option nat;
  peerConnection : option nat;
  isMuted : bool;
  callStatus : CallStatus;
  callDuration : nat
}.

(** The [useRef] cells. A channel is named by its topic. *)
Record Refs := mkRefs {
  channelRef : option string;
  callTimerRef : option nat;
  audioSrcObject : option nat
}.

(** Where the one invocation of [initializeCall] is suspended. *)
Inductive Stage :=
| NotStarted
| AwaitMedia        (* await getUserMedia, line 379 *)
| AwaitSubscribed   (* await subscribeToSignaling(pc), line 436 *)
| AwaitSettle       (* await setTimeout 1000, line 441 *)
| Done.

(** What [initializeCall] holds in its own scope, and what the functions
    it installs close over. *)
Record Invocation := mkInvocation {
  stage : Stage;
  pcLocal : option nat;          (* const pc, line 392 *)
  channelLocal : option string;  (* const channel, line 483 *)
  closure : ReactState           (* the state of the render that ran the effect *)
}.

(** ** The peer connection, as a parameter

    Each promise-returning method gives the connection afterwards and
    [None] for a rejected promise. *)
Record PcOps (PC : Type) := mkPcOps {
  pcNew : PC;
  pcAddTrack : PC -> Track -> PC;
  pcCreateOffer : PC -> PC * option Description;
  pcCreateAnswer : PC -> PC * option Description;
  pcSetLocalDescription : PC -> Description -> PC * option unit;
  pcSetRemoteDescription : PC -> Description -> PC * option unit;
  pcAddIceCandidate : PC -> Candidate -> PC * option unit;
  pcClose : PC -> PC
}.
Arguments pcNew {PC}.
Arguments pcAddTrack {PC}.
Arguments pcCreateOffer {PC}.
Arguments pcCreateAnswer {PC}.
Arguments pcSetLocalDescription {PC}.
Arguments pcSetRemoteDescription {PC}.
Arguments pcAddIceCandidate {PC}.
Arguments pcClose {PC}.

Section Component.

Context {PC : Type} (ops : PcOps PC).

(** The browser side: the objects references point to, the outcome of the
    coming [channel.send] calls ([false]: the promise rejects; an empty
    list: it resolves) and the next [setInterval] id. *)
Record Browser := mkBrowser {
  streams : list (list Track);
  pcs : list PC;
  sendOutcomes : list bool;
  nextTimer : nat
}.

Record World := mkWorld {
  props : Props;
  state : ReactState;
  refs : Refs;
  browser : Browser;
  call : Invocation
}.

(** *** Field updates *)

Definition withState (f : ReactState -> ReactState) (w : World) : World :=
  mkWorld (props w) (f (state w)) (refs w) (browser w) (call w).
Definition withRefs (f : Refs -> Refs) (w : World) : World :=
  mkWorld (props w) (state w) (f (refs w)) (browser w) (call w).
Definition withBrowser (f : Browser -> Browser) (w : World) : World :=
  mkWorld (props w) (state w) (refs w) (f (browser w)) (call w).
Definition withCall (f : Invocation -> Invocation) (w : World) : World :=
  mkWorld (props w) (state w) (refs w) (browser w) (f (call w)).

Definition setLocalStream (v : option nat) : World -> World :=
  withState (fun s => mkReactState v (peerConnection s) (isMuted s) (callStatus s) (callDuration s)).
Definition setPeerConnection (v : option nat) : World -> World :=
  withState (fun s => mkReactState (localStream s) v (isMuted s) (callStatus s) (callDuration s)).
Definition setIsMuted (v : bool) : World -> World :=
  withState (fun s => mkReactState (localStream s) (peerConnection s) v (callStatus s) (callDuration s)).
Definition setCallStatus (v : CallStatus) : World -> World :=
  withState (fun s => mkReactState (localStream s) (peerConnection s) (isMuted s) v (callDuration s)).
Definition setCallDuration (f : nat -> nat) : World -> World :=
  withState (fun s => mkReactState (localStream s) (peerConnection s) (isMuted s) (callStatus s) (f (callDuration s))).

Definition setChannelRef (v : option string) : World -> World :=
  withRefs (fun r => mkRefs v (callTimerRef r) (audioSrcObject r)).
Definition setCallTimerRef (v : option nat) : World -> World :=
  withRefs (fun r => mkRefs (channelRef r) v (audioSrcObject r)).
Definition setAudioSrcObject (v : option nat) : World -> World :=
  withRefs (fun r => mkRefs (channelRef r) (callTimerRef r) v).

Definition setStreams (f : list (list Track) -> list (list Track)) : World -> World :=
  withBrowser (fun b => mkBrowser (f (streams b)) (pcs b) (sendOutcomes b) (nextTimer b)).
Definition setPcs (f : list PC -> list PC) : World -> World :=
  withBrowser (fun b => mkBrowser (streams b) (f (pcs b)) (sendOutcomes b) (nextTimer b)).
Definition setSendOutcomes (v : list bool) : World -> World :=
  withBrowser (fun b => mkBrowser (streams b) (pcs b) v (nextTimer b)).
Definition setNextTimer (v : nat) : World -> World :=
  withBrowser (fun b => mkBrowser (streams b) (pcs b) (sendOutcomes b) v).

Definition setStage (v : Stage) : World -> World :=
  withCall (fun c => mkInvocation v (pcLocal c) (channelLocal c) (closure c)).
Definition setPcLocal (v : option nat) : World -> World :=
  withCall (fun c => mkInvocation (stage c) v (channelLocal c) (closure c)).
Definition setChannelLocal (v : option string) : World -> World :=
  withCall (fun c => mkInvocation (stage c) (pcLocal c) v (closure c)).
Definition setClosure (v : ReactState) : World -> World :=
  withCall (fun c => mkInvocation (stage c) (pcLocal c) (channelLocal c) v).

(** ** The monad: state, emitted effects, exceptions *)

Record Out (A : Type) := mkOut {
  world : World;
  effects : list Effect;
  value : option A    (* None: an exception is propagating *)
}.
Arguments mkOut {A}.
Arguments world {A}.
Arguments effects {A}.
Arguments value {A}.

Definition M (A : Type) : Type := World -> Out A.

Definition ret {A} (a : A) : M A := fun w => mkOut w [] (Some a).

Definition bind {A B} (m : M A) (k : A -> M B) : M B := fun w =>
  let o := m w in
  match value o with
  | Some a => let o' := k a (world o) in
              mkOut (world o') (effects o ++ effects o') (value o')
  | None => mkOut (world o) (effects o) None
  end.

Definition throw {A} : M A := fun w => mkOut w [] None.

Definition tryCatch (body handler : M unit) : M unit := fun w =>
  let o := body w in
  match value o with
  | Some _ => o
  | None => let o' := handler (world o) in
            mkOut (world o') (effects o ++ effects o') (value o')
  end.

Definition emit (e : Effect) : M unit := fun w => mkOut w [e] (Some tt).
Definition modify (f : World -> World) : M unit := fun w => mkOut (f w) [] (Some tt).
Definition gets {A} (f : World -> A) : M A := fun w => mkOut w [] (Some (f w)).

Notation "x <- m ;; k" := (bind m (fun x => k))
  (at level 100, m at next level, right associativity).
Notation "m ;; k" := (bind m (fun _ => k))
  (at level 100, right associativity).

Fixpoint forEach {A} (f : A -> M unit) (l : list A) : M unit :=
  match l with
  | [] => ret tt
  | x :: l' => f x ;; forEach f l'
  end.

Definition isSome {A} (o : option A) : bool :=
  match o with Some _ => true | None => false end.

(** A promise-returning method of connection [p]. References are only
    ever made by [initializeCallGranted], to an object it has just
    created, so the lookup fails on no world the component reaches. *)
Definition invoke {A} (p : nat) (c : PcCall) (f : PC -> PC * option A) : M A := fun w =>
  match pcs (browser w) !! p with
  | Some x => let r := f x in
              mkOut (setPcs (<[p := fst r]>) w) [PcInvoke p c (isSome (snd r))] (snd r)
  | None => mkOut w [] None
  end.

(** A method of connection [p] that returns normally. *)
Definition invokeTotal (p : nat) (c : PcCall) (f : PC -> PC) : M unit := fun w =>
  match pcs (browser w) !! p with
  | Some x => mkOut (setPcs (<[p := f x]>) w) [PcInvoke p c true] (Some tt)
  | None => mkOut w [] (Some tt)
  end.

(** [channel.send]: the resolved value is discarded by the caller. *)
Definition channelSend (topic : string) (pl : Payload) : M unit := fun w =>
  match sendOutcomes (browser w) with
  | [] => mkOut w [ChannelSend topic pl true] (Some tt)
  | ok :: rest =>
      mkOut (setSendOutcomes rest w) [ChannelSend topic pl ok]
            (if ok then Some tt else None)
  end.

(** ** The component's functions *)

(** Lines 459-479. [handleEndCall] and [pc.onicecandidate] do not await
    the call; the send itself is issued before they go on, and the log of
    a rejection is placed right after it. *)
Definition sendSignalingMessage (msg : Message) : M unit :=
  tryCatch
    (ch <- gets (fun w => channelRef (refs w)) ;;
     match ch with
     | None => emit (ConsoleError "Channel not initialized")
     | Some c =>
         emit (ConsoleLog ("Sending signaling message: " +:+ messageType msg)) ;;
         me <- gets (fun w => currentUserId (props w)) ;;
         other <- gets (fun w => otherUserId (props w)) ;;
         channelSend c (mkPayload me other msg [])
     end)
    (emit (ConsoleError "Error sending signaling message:")).

Definition stopTrack (t : Track) : Track := mkTrack (kind t) (enabled t) true.

Definition clearCallTimer : M unit :=
  t <- gets (fun w => callTimerRef (refs w)) ;;
  match t with
  | Some i => emit (ClearInterval i)
  | None => ret tt
  end.

(** [localStream.getTracks().forEach((track) => track.stop())]. *)
Definition stopTracks (s : nat) : M unit :=
  tracks <- gets (fun w => default [] (streams (browser w) !! s)) ;;
  forEach (fun i => emit (TrackStop s i)) (seq 0 (length tracks)) ;;
  modify (setStreams (alter (map stopTrack) s)).

(** Lines 543-561. [localStream] and [peerConnection] are the values the
    enclosing render captured; [channelRef] and [callTimerRef] are read
    from the refs. *)
Definition cleanup (snap : ReactState) : M unit :=
  match localStream snap with
  | Some s => stopTracks s
  | None => ret tt
  end ;;
  match peerConnection snap with
  | Some p => invokeTotal p Close (pcClose ops)
  | None => ret tt
  end ;;
  ch <- gets (fun w => channelRef (refs w)) ;;
  match ch with
  | Some c => emit (RemoveChannel c) ;; modify (setChannelRef None)
  | None => ret tt
  end ;;
  clearCallTimer ;;
  modify (setLocalStream None) ;;
  modify (setPeerConnection None) ;;
  modify (setCallStatus Ended) ;;
  modify (setCallDuration (fun _ => 0)).

(** Lines 535-541. *)
Definition handleEndCall (snap : ReactState) : M unit :=
  ch <- gets (fun w => channelRef (refs w)) ;;
  (if isSome ch then sendSignalingMessage EndCall else ret tt) ;;
  cleanup snap ;;
  emit OnClose.

Definition toggleEnabled (t : Track) : Track :=
  match kind t with
  | AudioTrack => mkTrack (kind t) (negb (enabled t)) (stopped t)
  | VideoTrack => t
  end.

(** Lines 526-533. *)
Definition toggleMute (snap : ReactState) : M unit :=
  match localStream snap with
  | Some s =>
      modify (setStreams (alter (map toggleEnabled) s)) ;;
      modify (setIsMuted (negb (isMuted snap)))
  | None => ret tt
  end.

(** [pc.ontrack], lines 403-411. The [audio] element is taken to be
    mounted. *)
Definition onTrack (remote : nat) : M unit :=
  emit (ConsoleLog "Received remote audio track") ;;
  modify (setAudioSrcObject (Some remote)) ;;
  modify (setCallStatus Connected) ;;
  emit (ShowToast ToastCallConnected).

(** [pc.onicecandidate], lines 414-422. *)
Definition onIceCandidate (c : option Candidate) : M unit :=
  match c with
  | Some c =>
      emit (ConsoleLog "Sending ICE candidate") ;;
      sendSignalingMessage (IceCandidate c)
  | None => ret tt
  end.

(** [pc.oniceconnectionstatechange], lines 425-433. *)
Definition onIceConnectionStateChange (snap : ReactState) (s : IceConnectionState) : M unit :=
  emit (ConsoleLog "ICE connection state:") ;;
  match s with
  | IceConnected => modify (setCallStatus Connected)
  | IceFailed | IceDisconnected =>
      emit (ShowToast ToastConnectionLost) ;;
      handleEndCall snap
  | _ => ret tt
  end.

(** The broadcast handler of [subscribeToSignaling], lines 485-515, for
    the connection [p] it was given. *)
Definition onSignaling (p : nat) (snap : ReactState) (pl : Payload) : M unit :=
  me <- gets (fun w => currentUserId (props w)) ;;
  if negb (String.eqb (to pl) me) then ret tt
  else
    emit (ConsoleLog ("Received signaling message: " +:+ messageType (message pl))) ;;
    tryCatch
      (match message pl with
       | Offer d =>
           emit (ConsoleLog "Processing offer") ;;
           invoke p (SetRemoteDescription d) (fun x => pcSetRemoteDescription ops x d) ;;
           answer <- invoke p CreateAnswer (pcCreateAnswer ops) ;;
           invoke p (SetLocalDescription answer) (fun x => pcSetLocalDescription ops x answer) ;;
           emit (ConsoleLog "Sending answer") ;;
           sendSignalingMessage (Answer answer)
       | Answer d =>
           emit (ConsoleLog "Processing answer") ;;
           invoke p (SetRemoteDescription d) (fun x => pcSetRemoteDescription ops x d)
       | IceCandidate c =>
           emit (ConsoleLog "Adding ICE candidate") ;;
           invoke p (AddIceCandidate c) (fun x => pcAddIceCandidate ops x c)
       | EndCall =>
           emit (ConsoleLog "Call ended by remote peer") ;;
           handleEndCall snap
       | OtherMessage _ => ret tt
       end)
      (emit (ConsoleError "Error processing signaling message:")).

(** The [.subscribe] call of [subscribeToSignaling], lines 482-484 and
    516: the promise it returns is pending. *)
Definition subscribeToSignaling : M unit :=
  chat <- gets (fun w => chatId (props w)) ;;
  emit (Subscribe ("audio-call-" +:+ chat)) ;;
  modify (setChannelLocal (Some ("audio-call-" +:+ chat))) ;;
  modify (setStage AwaitSubscribed).

(** The [catch] of [initializeCall], lines 452-456. *)
Definition initializeCallCatch : M unit :=
  emit (ConsoleError "Error initializing call:") ;;
  emit (ShowToast ToastMicrophoneDenied) ;;
  emit OnClose ;;
  modify (setStage Done).

(** [initializeCall] up to its first [await], lines 374-379. *)
Definition initializeCall : M unit :=
  emit (ConsoleLog "Initializing audio call, requesting microphone access...") ;;
  emit GetUserMedia ;;
  modify (setStage AwaitMedia).

(** [initializeCall] from the stream to [await subscribeToSignaling(pc)],
    lines 388-436. *)
Definition initializeCallGranted (tracks : list Track) : M unit :=
  emit (ConsoleLog "Microphone access granted, got stream:") ;;
  s <- gets (fun w => length (streams (browser w))) ;;
  modify (setStreams (fun l => l ++ [tracks])) ;;
  modify (setLocalStream (Some s)) ;;
  p <- gets (fun w => length (pcs (browser w))) ;;
  modify (setPcs (fun l => l ++ [pcNew ops])) ;;
  emit (NewPeerConnection p) ;;
  modify (setPeerConnection (Some p)) ;;
  emit (ConsoleLog "PeerConnection created") ;;
  forEach (fun t => emit (ConsoleLog "Adding audio track") ;;
                    invokeTotal p (AddTrack t) (fun x => pcAddTrack ops x t)) tracks ;;
  modify (setPcLocal (Some p)) ;;
  subscribeToSignaling.

(** [initializeCall] after the subscription promise resolved, lines
    439-441. *)
Definition initializeCallSubscribed : M unit :=
  initiator <- gets (fun w => isInitiator (props w)) ;;
  if initiator
  then emit (SetTimeout 1000) ;; modify (setStage AwaitSettle)
  else modify (setStage Done).

(** [initializeCall] after the settle delay, lines 442-450. *)
Definition initializeCallSettled (p : nat) : M unit :=
  tryCatch
    (emit (ConsoleLog "Creating offer as initiator") ;;
     offer <- invoke p CreateOffer (pcCreateOffer ops) ;;
     invoke p (SetLocalDescription offer) (fun x => pcSetLocalDescription ops x offer) ;;
     emit (ConsoleLog "Sending offer") ;;
     sendSignalingMessage (Offer offer) ;;
     modify (setStage Done))
    initializeCallCatch.

(** The [.subscribe] callback, lines 516-522. Resolving an already
    resolved promise does nothing. *)
Definition onSubscribeStatus (status : string) : M unit :=
  emit (ConsoleLog ("Channel subscription status: " +:+ status)) ;;
  if String.eqb status "SUBSCRIBED" then
    ch <- gets (fun w => channelLocal (call w)) ;;
    modify (setChannelRef ch) ;;
    st <- gets (fun w => stage (call w)) ;;
    match st with
    | AwaitSubscribed => initializeCallSubscribed
    | _ => ret tt
    end
  else ret tt.

(** The effect on [callStatus], lines 350-366, run after a render in
    which [callStatus] differs from the render before. *)
Definition callStatusEffect (before : CallStatus) : M unit :=
  now <- gets (fun w => callStatus (state w)) ;;
  if sameStatus before now then ret tt
  else
    clearCallTimer ;;
    match now with
    | Connected =>
        i <- gets (fun w => nextTimer (browser w)) ;;
        emit (SetInterval i 1000) ;;
        modify (setNextTimer (S i)) ;;
        modify (setCallTimerRef (Some i))
    | _ => clearCallTimer
    end.

(** ** Events *)

Inductive Event :=
| Opened                              (* the effect on isOpen runs, lines 339-348 *)
| MediaGranted (tracks : list Track)  (* getUserMedia resolves *)
| MediaDenied                         (* getUserMedia rejects *)
| SubscribeStatus (status : string)
| SettleElapsed                       (* the 1000 ms timeout fires *)
| Signaling (pl : Payload)            (* a broadcast on the topic *)
| RemoteTrack (remote : nat)
| LocalCandidate (c : option Candidate)
| IceStateChange (s : IceConnectionState)
| ClickMute
| ClickEndCall                        (* the end-call button, or the dialog closing *)
| Closed                              (* isOpen turns false: the effect's cleanup *)
| TimerTick.

(** Which function an event runs. Handlers installed by
    [initializeCall] run with the state it closed over ([snap]); handlers
    of the rendered buttons with the current state ([now]). Events for a
    handler that is not installed, or for an [await] that is not pending,
    do nothing. One opening of the dialog is followed: [Opened] runs
    [initializeCall] from the stage [NotStarted] only, so a sequence of
    events in which the dialog is opened a second time is outside what
    is modelled (the code would run [initializeCall] again there). *)
Definition dispatch (ev : Event) (st : Stage) (snap : ReactState)
    (p : option nat) (ch : option string) (now : ReactState) : M unit :=
  match ev, st, p, ch with
  | Opened, NotStarted, _, _ =>
      modify (setClosure now) ;;
      emit (ConsoleLog "AudioCall opened, isInitiator:") ;;
      initializeCall
  | MediaGranted tracks, AwaitMedia, _, _ =>
      tryCatch (initializeCallGranted tracks) initializeCallCatch
  | MediaDenied, AwaitMedia, _, _ => initializeCallCatch
  | SubscribeStatus status, _, _, Some _ => onSubscribeStatus status
  | SettleElapsed, AwaitSettle, Some p, _ => initializeCallSettled p
  | Signaling pl, _, Some p, Some _ => onSignaling p snap pl
  | RemoteTrack remote, _, Some _, _ => onTrack remote
  | LocalCandidate c, _, Some _, _ => onIceCandidate c
  | IceStateChange s, _, Some _, _ => onIceConnectionStateChange snap s
  | ClickMute, _, _, _ =>
      match callStatus now with
      | Connected => toggleMute now
      | _ => ret tt
      end
  | ClickEndCall, _, _, _ => handleEndCall now
  | Closed, (AwaitMedia | AwaitSubscribed | AwaitSettle | Done), _, _ => cleanup snap
  | TimerTick, _, _, _ =>
      t <- gets (fun w => callTimerRef (refs w)) ;;
      if isSome t then modify (setCallDuration S) else ret tt
  | _, _, _, _ => ret tt
  end.

Definition handle (ev : Event) : M unit := fun w =>
  dispatch ev (stage (call w)) (closure (call w)) (pcLocal (call w))
           (channelLocal (call w)) (state w) w.

(** One event, then the render it causes. *)
Definition step (ev : Event) : M unit := fun w =>
  (handle ev ;; callStatusEffect (callStatus (state w))) w.

(** The event loop: an exception escaping one event does not stop the
    following ones. *)
Fixpoint run (evs : list Event) : M unit := fun w =>
  match evs with
  | [] => mkOut w [] (Some tt)
  | ev :: evs' =>
      let o := step ev w in
      let o' := run evs' (world o) in
      mkOut (world o') (effects o ++ effects o') (value o')
  end.

End Component.

Arguments mkOut {PC A}.
Arguments world {PC A}.
Arguments effects {PC A}.
Arguments value {PC A}.

(** ** A connection to evaluate the component on

    It follows the WebRTC API in the points the component meets: a closed
    connection rejects every negotiation call, [createAnswer] needs a
    remote description, and [addIceCandidate] rejects while no remote
    description has been applied. *)
Record RtcPc := mkRtcPc {
  senders : list Track;
  localDescription : option Description;
  remoteDescription : option Description;
  remoteCandidates : list Candidate;
  closed : bool
}.

Definition rtcOps : PcOps RtcPc := {|
  pcNew := mkRtcPc [] None None [] false;
  pcAddTrack x t :=
    mkRtcPc (senders x ++ [t]) (localDescription x) (remoteDescription x)
            (remoteCandidates x) (closed x);
  pcCreateOffer x :=
    (x, if closed x then None else Some (mkDescription "offer" "local-offer"));
  pcCreateAnswer x :=
    (x, if closed x then None
        else match remoteDescription x with
             | Some _ => Some (mkDescription "answer" "local-answer")
             | None => None
             end);
  pcSetLocalDescription x d :=
    if closed x then (x, None)
    else (mkRtcPc (senders x) (Some d) (remoteDescription x)
                  (remoteCandidates x) (closed x), Some tt);
  pcSetRemoteDescription x d :=
    if closed x then (x, None)
    else (mkRtcPc (senders x) (localDescription x) (Some d)
                  (remoteCandidates x) (closed x), Some tt);
  pcAddIceCandidate x c :=
    if closed x then (x, None)
    else match remoteDescription x with
         | Some _ => (mkRtcPc (senders x) (localDescription x) (remoteDescription x)
                              (remoteCandidates x ++ [c]) (closed x), Some tt)
         | None => (x, None)
         end;
  pcClose x :=
    mkRtcPc (senders x) (localDescription x) (remoteDescription x)
            (remoteCandidates x) true
|}.

(** The component as first rendered: nothing acquired, nothing started. *)
Definition mounted {PC} (pr : Props) (outcomes : list bool) : @World PC :=
  mkWorld pr
          (mkReactState None None false Connecting 0)
          (mkRefs None None None)
          (mkBrowser [] [] outcomes 0)
          (mkInvocation NotStarted None None (mkReactState None None false Connecting 0)).

Definition alice (initiator : bool) : Props :=
  mkProps "chat-1" "alice" "bob" "Bob" initiator.

Definition microphone : Track := mkTrack AudioTrack true false.

(** ** Reading the emitted effects *)

Definition isOffer (m : Message) : bool :=
  match m with Offer _ => true | _ => false end.

Definition isEndCall (m : Message) : bool :=
  match m with EndCall => true | _ => false end.

Definition isSend (e : Effect) : bool :=
  match e with ChannelSend _ _ _ => true | _ => false end.

Definition isOfferSend (e : Effect) : bool :=
  match e with ChannelSend _ pl _ => isOffer (message pl) | _ => false end.

Definition isEndCallSend (e : Effect) : bool :=
  match e with ChannelSend _ pl _ => isEndCall (message pl) | _ => false end.

Definition isRemoveChannel (e : Effect) : bool :=
  match e with RemoveChannel _ => true | _ => false end.


Definition isAddIceCandidate (e : Effect) : bool :=
  match e with PcInvoke _ (AddIceCandidate _) _ => true | _ => false end.

(** Anything but sending an Offer (or a message of no known kind). *)
Definition responderMayEmit (e : Effect) : bool :=
  match e with
  | ChannelSend _ pl _ =>
      match message pl with
      | Answer _ | IceCandidate _ | EndCall => true
      | Offer _ | OtherMessage _ => false
      end
  | _ => true
  end.

(** What the message handler itself sends. *)
Definition handlerMayEmit (e : Effect) : bool :=
  match e with
  | ChannelSend _ pl _ =>
      match message pl with
      | Answer _ | EndCall => true
      | _ => false
      end
  | _ => true
  end.

(** The events that set [callStatus] to [Connected]. *)
Definition revives (ev : Event) : bool :=
  match ev with
  | IceStateChange IceConnected | RemoteTrack _ => true
  | _ => false
  end.

(** The subscription was confirmed, and the settle delay requested after
    that. *)
Definition confirmedThenDelayed (pre : list Effect) : Prop :=
  exists a b c,
    pre = a ++ ConsoleLog "Channel subscription status: SUBSCRIBED"
            :: b ++ SetTimeout 1000 :: c.

(** The delay itself. The effect [e], found after [pre] in the trace of
    [evs], is emitted while the firing of the timeout ([SettleElapsed]) is
    handled, and that event comes later in [evs] than the report of
    SUBSCRIBED, whose handling did nothing but log the status and request
    the timeout of 1000 ms. *)
Definition sentWhenDelayElapsed {PC} (ops : PcOps PC) (evs : list Event)
    (w : @World PC) (pre : list Effect) (e : Effect) : Prop :=
  exists evs1 evs2 evs3 a b,
    evs = evs1 ++ SubscribeStatus "SUBSCRIBED" :: evs2 ++ SettleElapsed :: evs3 /\
    effects (step ops (SubscribeStatus "SUBSCRIBED") (world (run ops evs1 w))) =
      [ConsoleLog "Channel subscription status: SUBSCRIBED"; SetTimeout 1000] /\
    pre = effects (run ops (evs1 ++ SubscribeStatus "SUBSCRIBED" :: evs2) w) ++ a /\
    effects (step ops SettleElapsed
               (world (run ops (evs1 ++ SubscribeStatus "SUBSCRIBED" :: evs2) w))) =
      a ++ e :: b.

(** ** Two judgements on computations *)

(** Every effect [m] emits satisfies [P]. *)
Definition Emits {PC A} (P : Effect -> Prop) (m : @M PC A) : Prop :=
  forall w, Forall P (effects (m w)).

(** [m] maintains the invariant [I] of the world. *)
Definition Maintains {PC A} (I : @World PC -> Prop) (m : @M PC A) : Prop :=
  forall w, I w -> I (world (m w)).

(** [m] never lets an exception escape. *)
Definition Catches {PC A} (m : @M PC A) : Prop :=
  forall w, value (m w) <> None.

(** ** Scenarios *)

Definition bobCandidate : Payload :=
  mkPayload "bob" "alice" (IceCandidate "candidate-1") [].

Definition bobOffer : Payload :=
  mkPayload "bob" "alice" (Offer (mkDescription "offer" "remote-offer")) [].

Definition bobAnswer : Payload :=
  mkPayload "bob" "alice" (Answer (mkDescription "answer" "remote-answer")) [].

(** An end-call message left over from an earlier call on the same topic,
    tagged with that call's identifier. *)
Definition staleHangup : Payload :=
  mkPayload "bob" "alice" EndCall [("sessionId", "an-earlier-call")].

Definition forCarol : Payload :=
  mkPayload "bob" "carol" EndCall [].

(** Up to the confirmed subscription. *)
Definition subscribing : list Event :=
  [Opened; MediaGranted [microphone]; SubscribeStatus "SUBSCRIBED"].

(** An Initiator's call up to the connected state. *)
Definition connecting : list Event :=
  subscribing ++ [SettleElapsed; Signaling bobAnswer; IceStateChange IceConnected].

Definition isOnClose (e : Effect) : bool :=
  match e with OnClose => true | _ => false end.


(** ** The rest of AudioCall: [formatCallDuration], lines 368-372 *)

(** [String.prototype.padStart] with a pad of one character. *)
Definition padStart (targetLength : nat) (pad : ascii) (s : string) : string :=
  String.string_of_list_ascii (List.repeat pad (targetLength - String.length s)) +:+ s.

(** [callDuration] starts at 0 and is only ever incremented by 1, so
    [seconds] is a natural number; [pretty] is its decimal notation, as
    [toString] and template interpolation give it. *)
Definition formatCallDuration (seconds : nat) : string :=
  let mins := Nat.div seconds 60 in
  let secs := Nat.modulo seconds 60 in
  pretty mins +:+ ":" +:+ padStart 2 "0"%char (pretty secs).

(** * src/lib/errorHandler.ts *)

Module ErrorHandler.

(** What [getUserFriendlyError] reads of its argument: [code] and
    [message], each [None] when absent (or, for [code], not a string).
    The errors covered are those whose [message] is absent or a string,
    as the database client's are; the parameter is typed [any], and for a
    [message] of another type [error?.message?.includes] of line 16 is
    outside this type (it throws when the value has no such method). *)
Record ErrorValue := mkError {
  code : option string;
  message : option string
}.

(** [String.prototype.includes]. The patterns searched for are ASCII, so
    searching bytes and searching UTF-16 units agree. *)
Fixpoint includes (pattern s : string) : bool :=
  String.prefix pattern s ||
  match s with
  | EmptyString => false
  | String _ rest => includes pattern rest
  end.

(** [error?.code === c]; [error] itself may be null or undefined. *)
Definition codeIs (error : option ErrorValue) (c : string) : bool :=
  match error with
  | Some e => match code e with Some c' => String.eqb c' c | None => false end
  | None => false
  end.

(** [error?.message?.includes(pattern)], as a condition. *)
Definition messageIncludes (error : option ErrorValue) (pattern : string) : bool :=
  match error with
  | Some e => match message e with Some m => includes pattern m | None => false end
  | None => false
  end.

(** Lines 5-31: the line written with [console.error], and the text
    returned. *)
Definition getUserFriendlyError (error : option ErrorValue) : list string * string :=
  (["[Error Details]"],
   if codeIs error "23505" then "Запись уже существует"
   else if codeIs error "23503" then "Связанные данные не найдены"
   else if codeIs error "PGRST301" then "У вас нет доступа к этому ресурсу"
   else if codeIs error "42P01" then "Ресурс не найден"
   else if messageIncludes error "RLS" || messageIncludes error "row-level security"
     then "Отказано в доступе"
   else if messageIncludes error "JWT" || messageIncludes error "authentication"
     then "Требуется повторная авторизация"
   else if messageIncludes error "duplicate key" then "Запись уже существует"
   else if messageIncludes error "foreign key" then "Связанные данные не найдены"
   else "Произошла ошибка. Попробуйте позже.").

(** Every text the function can return. *)
Definition userMessages : list string :=
  ["Запись уже существует"; "Связанные данные не найдены";
   "У вас нет доступа к этому ресурсу"; "Ресурс не найден";
   "Отказано в доступе"; "Требуется повторная авторизация";
   "Произошла ошибка. Попробуйте позже."].

Definition knownCodes : list string := ["23505"; "23503"; "PGRST301"; "42P01"].

End ErrorHandler.

(** * The ChatRequests component, lines 121-182 of
      src/components/ChatRequests.tsx: [acceptRequest], [rejectRequest],
      [cancelRequest]

    The database is the outside world: what each call answers is a
    parameter ([Backend]). What the functions do, the [setLoading] calls
    included, is emitted as a list of [Action]s in program order. *)

Module ChatRequests.

Import ErrorHandler.

(** The outcome of an awaited Supabase call: the promise resolves to an
    object whose [error] member is null or an error, or it rejects. *)
Inductive Response :=
| Resolved (error : option ErrorValue)
| Rejected (reason : option ErrorValue).

Record Backend := mkBackend {
  rpcCreateChatWithMembers : string -> bool -> Response;
  updateRequestStatus : string -> string -> Response;
  deleteRequest : string -> Response
}.

Inductive Action :=
| SetLoading (loading : bool)
| Rpc (other_user_id : string) (is_group_chat : bool)
| UpdateStatus (requestId status : string)
| Delete (requestId : string)
| ConsoleErr (text : string)
| ToastSuccess (text : string)
| ToastError (text : string)
| OnRequestAccepted.

(** Actions in order, then a value or the thrown error. *)
Definition R (A : Type) : Type := list Action * (A + option ErrorValue).

Definition ret {A} (a : A) : R A := ([], inl a).
Definition throw {A} (e : option ErrorValue) : R A := ([], inr e).
Definition emit (a : Action) : R unit := ([a], inl tt).

Definition bind {A B} (m : R A) (k : A -> R B) : R B :=
  match snd m with
  | inl a => (fst m ++ fst (k a), snd (k a))
  | inr e => (fst m, inr e)
  end.

Notation "x <- m ;; k" := (bind m (fun x => k))
  (at level 100, m at next level, right associativity).
Notation "m ;; k" := (bind m (fun _ => k))
  (at level 100, right associativity).

(** [try { body } catch (error) { handler } finally { final }]. *)
Definition tryCatchFinally (body : R unit) (handler : option ErrorValue -> R unit)
    (final : R unit) : R unit :=
  let caught :=
    match snd body with
    | inl _ => body
    | inr e => (fst body ++ fst (handler e), snd (handler e))
    end in
  match snd final with
  | inl _ => (fst caught ++ fst final, snd caught)
  | inr e => (fst caught ++ fst final, inr e)
  end.

(** [const { error } = await call]. *)
Definition await (call : Action) (answer : Response) : R (option ErrorValue) :=
  emit call ;;
  match answer with
  | Resolved error => ret error
  | Rejected reason => throw reason
  end.

(** [if (error) throw error]. *)
Definition throwIf (error : option ErrorValue) : R unit :=
  match error with
  | Some e => throw (Some e)
  | None => ret tt
  end.

(** [toast.error(getUserFriendlyError(error))]. *)
Definition toastError (error : option ErrorValue) : R unit :=
  let logged := getUserFriendlyError error in
  (map ConsoleErr (fst logged) ++ [ToastError (snd logged)], inl tt).

Section Actions.

Variable db : Backend.

(** Lines 121-148. *)
Definition acceptRequest (requestId senderId : string) : R unit :=
  emit (SetLoading true) ;;
  tryCatchFinally
    (chatError <- await (Rpc senderId false) (rpcCreateChatWithMembers db senderId false) ;;
     throwIf chatError ;;
     updateError <- await (UpdateStatus requestId "accepted")
                          (updateRequestStatus db requestId "accepted") ;;
     throwIf updateError ;;
     emit (ToastSuccess "Запрос принят, чат создан!") ;;
     emit OnRequestAccepted)
    toastError
    (emit (SetLoading false)).

(** Lines 150-165. *)
Definition rejectRequest (requestId : string) : R unit :=
  emit (SetLoading true) ;;
  tryCatchFinally
    (error <- await (UpdateStatus requestId "rejected")
                    (updateRequestStatus db requestId "rejected") ;;
     throwIf error ;;
     emit (ToastSuccess "Запрос отклонен"))
    toastError
    (emit (SetLoading false)).

(** Lines 167-182. *)
Definition cancelRequest (requestId : string) : R unit :=
  emit (SetLoading true) ;;
  tryCatchFinally
    (error <- await (Delete requestId) (deleteRequest db requestId) ;;
     throwIf error ;;
     emit (ToastSuccess "Запрос отменен"))
    toastError
    (emit (SetLoading false)).

End Actions.

(** Reading the actions. *)

Definition isToast (a : Action) : bool :=
  match a with ToastSuccess _ | ToastError _ => true | _ => false end.

Definition isDatabaseCall (a : Action) : bool :=
  match a with Rpc _ _ | UpdateStatus _ _ | Delete _ => true | _ => false end.

Definition isUpdate (a : Action) : bool :=
  match a with UpdateStatus _ _ => true | _ => false end.

Definition isAccepted (a : Action) : bool :=
  match a with OnRequestAccepted => true | _ => false end.

Definition succeeded (answer : Response) : bool :=
  match answer with Resolved None => true | _ => false end.

(** The [loading] flag after the actions, starting from [before]. *)
Definition loadingAfter (before : bool) (actions : list Action) : bool :=
  fold_left (fun l a => match a with SetLoading b => b | _ => l end) actions before.

End ChatRequests.


(** ** Further readings of the effects *)

(** A send on the session's topic, from the local participant to the
    remote one, with nothing added to the payload. *)
Definition wellAddressed (pr : Props) (e : Effect) : Prop :=
  match e with
  | ChannelSend topic pl _ =>
      topic = "audio-call-" +:+ chatId pr /\
      from pl = currentUserId pr /\ to pl = otherUserId pr /\ extra pl = []
  | _ => True
  end.

(** Neither a send, nor a subscription, nor a new connection, nor a
    request for the microphone. *)
Definition startsNothing (e : Effect) : bool :=
  match e with
  | ChannelSend _ _ _ | Subscribe _ | NewPeerConnection _ | GetUserMedia => false
  | _ => true
  end.

Definition isSetInterval (e : Effect) : bool :=
  match e with SetInterval _ _ => true | _ => false end.

(** The intervals still running after the effects [E], given those
    running before. *)
Fixpoint liveTimers (live : list nat) (E : list Effect) : list nat :=
  match E with
  | [] => live
  | SetInterval t _ :: E' => liveTimers (t :: live) E'
  | ClearInterval t :: E' =>
      liveTimers (List.filter (fun u => negb (Nat.eqb u t)) live) E'
  | _ :: E' => liveTimers live E'
  end.

(** What sending an Answer to the Offer [d] takes on the connection [x]:
    the three calls of lines 494-496, in order. The result is the answer
    when all three succeed. *)
Definition negotiatedAnswer {PC} (ops : PcOps PC) (x : PC) (d : Description)
    : option Description :=
  let r1 := pcSetRemoteDescription ops x d in
  match snd r1 with
  | None => None
  | Some _ =>
      let r2 := pcCreateAnswer ops (fst r1) in
      match snd r2 with
      | None => None
      | Some a =>
          match snd (pcSetLocalDescription ops (fst r2) a) with
          | Some _ => Some a
          | None => None
          end
      end
  end.

(** [m] maintains [I] and, from a world where [I] holds, emits only
    effects that satisfy [P]. *)
Definition Keeps {PC A} (I : @World PC -> Prop) (P : Effect -> Prop)
    (m : @M PC A) : Prop :=
  forall w, I w -> I (world (m w)) /\ Forall P (effects (m w)).


(** The channel the session may hold is the one of its chat. *)
Definition onTopic {PC} (pr : Props) (w : @World PC) : Prop :=
  props w = pr /\
  (channelRef (refs w) = None \/
   channelRef (refs w) = Some ("audio-call-" +:+ chatId pr)) /\
  (channelLocal (call w) = None \/
   channelLocal (call w) = Some ("audio-call-" +:+ chatId pr)).

Definition subscribedLog : Effect :=
  ConsoleLog "Channel subscription status: SUBSCRIBED".

(** After the microphone was refused: [initializeCall] has returned
    through its [catch], with no connection and no channel made. *)
Definition refused {PC} (w : @World PC) : Prop :=
  stage (call w) = Done /\ pcLocal (call w) = None /\
  channelLocal (call w) = None /\ channelRef (refs w) = None.

Definition isOnCloseOrSend (e : Effect) : bool := isOnClose e || isSend e.

(** The intervals [live] are accounted for in the world [w]: whatever is
    still running is the interval [callTimerRef] names, there is at most
    one, and none while the call is not connected. *)
Definition oneTimer {PC} (w : @World PC) (live : list nat) : Prop :=
  (forall t, In t live -> callTimerRef (refs w) = Some t) /\
  length live <= 1 /\
  (callStatus (state w) <> Connected -> live = []).


(** The candidate a send carries, when it is a Candidate message, and the
    candidate [pc.onicecandidate] is called with. *)
Definition sentCandidate (e : Effect) : option Candidate :=
  match e with
  | ChannelSend _ pl _ =>
      match message pl with
      | IceCandidate c => Some c
      | _ => None
      end
  | _ => None
  end.

Definition gathered (ev : Event) : option Candidate :=
  match ev with
  | LocalCandidate c => c
  | _ => None
  end.

(** * Proofs *)

Section Logic.

Context {PC : Type}.
Implicit Types (P : Effect -> Prop) (I : @World PC -> Prop).

Lemma Emits_ret {A} P (a : A) : Emits P (@ret PC A a).
Proof. intros w. constructor. Qed.

Lemma Emits_throw {A} P : Emits P (@throw PC A).
Proof. intros w. constructor. Qed.

Lemma Emits_gets {A} P (f : @World PC -> A) : Emits P (gets f).
Proof. intros w. constructor. Qed.

Lemma Emits_modify P (f : @World PC -> @World PC) : Emits P (modify f).
Proof. intros w. constructor. Qed.

Lemma Emits_emit P e : P e -> Emits P (@emit PC e).
Proof. intros H w. cbn. auto. Qed.

Lemma Emits_bind {A B} P (m : M A) (k : A -> @M PC B) :
  Emits P m -> (forall a, Emits P (k a)) -> Emits P (bind m k).
Proof.
  intros Hm Hk w. unfold bind. specialize (Hm w).
  destruct (value (m w)) as [a|]; cbn; [|exact Hm].
  apply Forall_app. split; [exact Hm | apply Hk].
Qed.

Lemma Emits_tryCatch P (body handler : @M PC unit) :
  Emits P body -> Emits P handler -> Emits P (tryCatch body handler).
Proof.
  intros Hb Hh w. unfold tryCatch. specialize (Hb w).
  destruct (value (body w)); cbn; [exact Hb|].
  apply Forall_app. split; [exact Hb | apply Hh].
Qed.

Lemma Emits_forEach {A} P (f : A -> @M PC unit) l :
  (forall x, Emits P (f x)) -> Emits P (forEach f l).
Proof.
  intros Hf. induction l as [|x l IH]; cbn [forEach].
  - apply Emits_ret.
  - apply Emits_bind; [apply Hf | intros _; exact IH].
Qed.

Lemma Emits_invoke {A} P p c (f : PC -> PC * option A) :
  (forall ok, P (PcInvoke p c ok)) -> Emits P (invoke p c f).
Proof.
  intros H w. unfold invoke. destruct (pcs (browser w) !! p); cbn; auto.
Qed.

Lemma Emits_invokeTotal P p c (f : PC -> PC) :
  P (PcInvoke p c true) -> Emits P (invokeTotal p c f).
Proof.
  intros H w. unfold invokeTotal. destruct (pcs (browser w) !! p); cbn; auto.
Qed.

Lemma Emits_channelSend P topic pl :
  (forall ok, P (ChannelSend topic pl ok)) -> Emits P (@channelSend PC topic pl).
Proof.
  intros H w. unfold channelSend. destruct (sendOutcomes (browser w)); cbn; auto.
Qed.

End Logic.

(** Break a computation down to the effects it emits. *)
Ltac emits_step :=
  lazymatch goal with
  | |- Emits _ (match ?x with _ => _ end) => destruct x
  | |- Emits _ (ret _) => apply Emits_ret
  | |- Emits _ throw => apply Emits_throw
  | |- Emits _ (gets _) => apply Emits_gets
  | |- Emits _ (modify _) => apply Emits_modify
  | |- Emits _ (bind _ _) => apply Emits_bind; [| intros ?]
  | |- Emits _ (tryCatch _ _) => apply Emits_tryCatch
  | |- Emits _ (forEach _ _) => apply Emits_forEach; intros ?
  | |- Emits _ (invoke _ _ _) => apply Emits_invoke; intros ?
  | |- Emits _ (invokeTotal _ _ _) => apply Emits_invokeTotal
  | |- Emits _ (channelSend _ _) => apply Emits_channelSend; intros ?
  | |- Emits _ (emit _) => apply Emits_emit
  end.

Ltac emits := repeat emits_step; try reflexivity.

Section EmitsFacts.

Context {PC : Type} (ops : PcOps PC).

Lemma sendSignalingMessage_emits (P : Effect -> Prop) msg :
  (forall s, P (ConsoleLog s)) -> (forall s, P (ConsoleError s)) ->
  (forall t a b ok, P (ChannelSend t (mkPayload a b msg []) ok)) ->
  Emits P (@sendSignalingMessage PC msg).
Proof. intros Hl He Hs. unfold sendSignalingMessage. emits; auto. Qed.

Lemma cleanup_emits_no_send snap :
  Emits (fun e => isSend e = false) (cleanup ops snap).
Proof. unfold cleanup, stopTracks, clearCallTimer. emits. Qed.

Lemma onSignaling_emits p snap pl :
  Emits (fun e => handlerMayEmit e = true) (onSignaling ops p snap pl).
Proof.
  unfold onSignaling, handleEndCall, cleanup, stopTracks, clearCallTimer.
  emits; apply sendSignalingMessage_emits; reflexivity.
Qed.

End EmitsFacts.

Section MaintainsLogic.

Context {PC : Type}.
Implicit Types (I : @World PC -> Prop).

Lemma Maintains_ret {A} I (a : A) : Maintains I (@ret PC A a).
Proof. intros w H. exact H. Qed.

Lemma Maintains_throw {A} I : Maintains I (@throw PC A).
Proof. intros w H. exact H. Qed.

Lemma Maintains_gets {A} I (f : @World PC -> A) : Maintains I (gets f).
Proof. intros w H. exact H. Qed.

Lemma Maintains_emit I e : Maintains I (@emit PC e).
Proof. intros w H. exact H. Qed.

Lemma Maintains_modify I (f : @World PC -> @World PC) :
  (forall w, I w -> I (f w)) -> Maintains I (modify f).
Proof. intros Hf w H. cbn. auto. Qed.

Lemma Maintains_bind {A B} I (m : M A) (k : A -> @M PC B) :
  Maintains I m -> (forall a, Maintains I (k a)) -> Maintains I (bind m k).
Proof.
  intros Hm Hk w H. unfold bind. specialize (Hm w H).
  destruct (value (m w)) as [a|]; cbn; [|exact Hm].
  apply Hk, Hm.
Qed.

Lemma Maintains_tryCatch I (body handler : @M PC unit) :
  Maintains I body -> Maintains I handler -> Maintains I (tryCatch body handler).
Proof.
  intros Hb Hh w H. unfold tryCatch. specialize (Hb w H).
  destruct (value (body w)); cbn; [exact Hb|].
  apply Hh, Hb.
Qed.

Lemma Maintains_forEach {A} I (f : A -> @M PC unit) l :
  (forall x, Maintains I (f x)) -> Maintains I (forEach f l).
Proof.
  intros Hf. induction l as [|x l IH]; cbn [forEach].
  - apply Maintains_ret.
  - apply Maintains_bind; [apply Hf | intros _; exact IH].
Qed.

Lemma Maintains_invoke {A} I p c (f : PC -> PC * option A) :
  (forall g w, I w -> I (setPcs g w)) -> Maintains I (invoke p c f).
Proof.
  intros Hg w H. unfold invoke. destruct (pcs (browser w) !! p); cbn; auto.
Qed.

Lemma Maintains_invokeTotal I p c (f : PC -> PC) :
  (forall g w, I w -> I (setPcs g w)) -> Maintains I (invokeTotal p c f).
Proof.
  intros Hg w H. unfold invokeTotal. destruct (pcs (browser w) !! p); cbn; auto.
Qed.

Lemma Maintains_channelSend I topic pl :
  (forall v w, I w -> I (setSendOutcomes v w)) ->
  Maintains I (@channelSend PC topic pl).
Proof.
  intros Hv w H. unfold channelSend.
  destruct (sendOutcomes (browser w)); cbn; auto.
Qed.

Lemma Catches_ret {A} (a : A) : Catches (@ret PC A a).
Proof. intros w. discriminate. Qed.

Lemma Catches_gets {A} (f : @World PC -> A) : Catches (gets f).
Proof. intros w. discriminate. Qed.

Lemma Catches_emit e : Catches (@emit PC e).
Proof. intros w. discriminate. Qed.

Lemma Catches_modify (f : @World PC -> @World PC) : Catches (modify f).
Proof. intros w. discriminate. Qed.

Lemma Catches_bind {A B} (m : M A) (k : A -> @M PC B) :
  Catches m -> (forall a, Catches (k a)) -> Catches (bind m k).
Proof.
  intros Hm Hk w. unfold bind. specialize (Hm w).
  destruct (value (m w)) as [a|]; cbn; [apply Hk | congruence].
Qed.

Lemma Catches_tryCatch (body handler : @M PC unit) :
  Catches handler -> Catches (tryCatch body handler).
Proof.
  intros Hh w. unfold tryCatch.
  destruct (value (body w)) eqn:E; cbn; [congruence | apply Hh].
Qed.

Lemma Catches_forEach {A} (f : A -> @M PC unit) l :
  (forall x, Catches (f x)) -> Catches (forEach f l).
Proof.
  intros Hf. induction l as [|x l IH]; cbn [forEach].
  - apply Catches_ret.
  - apply Catches_bind; [apply Hf | intros _; exact IH].
Qed.

Lemma Catches_invokeTotal p c (f : PC -> PC) : Catches (invokeTotal p c f).
Proof.
  intros w. unfold invokeTotal. destruct (pcs (browser w) !! p); discriminate.
Qed.

Lemma Catches_value (m : @M PC unit) w : Catches m -> value (m w) = Some tt.
Proof. intros H. specialize (H w). destruct (value (m w)) as [[]|]; congruence. Qed.

End MaintainsLogic.

Ltac maintains_step :=
  lazymatch goal with
  | |- Maintains _ (match ?x with _ => _ end) => destruct x
  | |- Maintains _ (ret _) => apply Maintains_ret
  | |- Maintains _ throw => apply Maintains_throw
  | |- Maintains _ (gets _) => apply Maintains_gets
  | |- Maintains _ (emit _) => apply Maintains_emit
  | |- Maintains _ (bind _ _) => apply Maintains_bind; [| intros ?]
  | |- Maintains _ (tryCatch _ _) => apply Maintains_tryCatch
  | |- Maintains _ (forEach _ _) => apply Maintains_forEach; intros ?
  | |- Maintains _ (invoke _ _ _) => apply Maintains_invoke; intros ? ? ?
  | |- Maintains _ (invokeTotal _ _ _) => apply Maintains_invokeTotal; intros ? ? ?
  | |- Maintains _ (channelSend _ _) => apply Maintains_channelSend; intros ? ? ?
  | |- Maintains _ (modify _) => apply Maintains_modify; intros ? ?
  end.

Ltac maintains :=
  repeat maintains_step; try (cbn in *; solve [auto | congruence]).

Ltac catches_step :=
  lazymatch goal with
  | |- Catches (match ?x with _ => _ end) => destruct x
  | |- Catches (ret _) => apply Catches_ret
  | |- Catches (gets _) => apply Catches_gets
  | |- Catches (emit _) => apply Catches_emit
  | |- Catches (modify _) => apply Catches_modify
  | |- Catches (bind _ _) => apply Catches_bind; [| intros ?]
  | |- Catches (tryCatch _ _) => apply Catches_tryCatch
  | |- Catches (forEach _ _) => apply Catches_forEach; intros ?
  | |- Catches (invokeTotal _ _ _) => apply Catches_invokeTotal
  end.

Ltac catches := repeat catches_step.

Ltac unfold_component :=
  repeat progress unfold dispatch, initializeCall, initializeCallGranted, initializeCallCatch,
    initializeCallSubscribed, initializeCallSettled, subscribeToSignaling,
    onSubscribeStatus, onSignaling, onTrack, onIceCandidate,
    onIceConnectionStateChange, toggleMute, handleEndCall, cleanup,
    stopTracks, clearCallTimer, callStatusEffect, sendSignalingMessage.

Section StepFacts.

Context {PC : Type} (ops : PcOps PC).

Lemma dispatch_catches ev st snap p ch now :
  Catches (dispatch ops ev st snap p ch now).
Proof. unfold_component. destruct ev, st, p, ch; catches. Qed.

Lemma callStatusEffect_catches before : Catches (@callStatusEffect PC before).
Proof. unfold_component. catches. Qed.

Lemma handle_catches ev : Catches (handle ops ev).
Proof. intros w. unfold handle. apply dispatch_catches. Qed.

Lemma step_value ev w : value (step ops ev w) = Some tt.
Proof.
  assert (H : value (step ops ev w) <> None).
  { unfold step. apply Catches_bind;
      [apply handle_catches | intros _; apply callStatusEffect_catches]. }
  destruct (value (step ops ev w)) as [[]|]; congruence.
Qed.

Lemma handle_maintains (I : @World PC -> Prop) ev :
  (forall st snap p ch now, Maintains I (dispatch ops ev st snap p ch now)) ->
  Maintains I (handle ops ev).
Proof. intros H w Hw. unfold handle. apply H, Hw. Qed.

Lemma step_maintains (I : @World PC -> Prop) ev :
  Maintains I (handle ops ev) ->
  (forall before, Maintains I (@callStatusEffect PC before)) ->
  Maintains I (step ops ev).
Proof.
  intros Hh Hc w Hw. unfold step.
  apply Maintains_bind; [exact Hh | intros _; apply Hc | exact Hw].
Qed.

Lemma dispatch_props pr ev st snap p ch now :
  Maintains (fun w => props w = pr) (dispatch ops ev st snap p ch now).
Proof. unfold_component. destruct ev, st, p, ch; maintains. Qed.

Lemma step_props ev w : props (world (step ops ev w)) = props w.
Proof.
  apply (step_maintains (fun w' => props w' = props w)); [| | reflexivity].
  - apply handle_maintains. intros. apply dispatch_props.
  - intros before. unfold_component. maintains.
Qed.

Lemma run_props evs w : props (world (run ops evs w)) = props w.
Proof.
  revert w. induction evs as [|ev evs IH]; intros w; cbn; [reflexivity|].
  rewrite IH. apply step_props.
Qed.

End StepFacts.

Ltac by_event ev st p ch :=
  destruct ev, st, p, ch; unfold dispatch; cbv beta iota.

Section RoleFacts.

Context {PC : Type} (ops : PcOps PC).

Lemma responderMayEmit_not_offer e :
  responderMayEmit e = true -> isOfferSend e = false.
Proof. destruct e as [| | | | | | | |t [a b [] x] ok| | | | |]; cbn; congruence. Qed.

(** Only the continuation after the settle delay sends an Offer. *)
Lemma dispatch_emits ev st snap p ch now :
  st <> AwaitSettle ->
  Emits (fun e => responderMayEmit e = true) (dispatch ops ev st snap p ch now).
Proof.
  intros Hst. by_event ev st p ch; try congruence; unfold_component; emits.
Qed.

Lemma callStatusEffect_emits before :
  Emits (fun e => responderMayEmit e = true) (@callStatusEffect PC before).
Proof. unfold_component. emits. Qed.

Lemma step_effects ev w :
  effects (step ops ev w) =
  effects (handle ops ev w) ++
  effects (callStatusEffect (callStatus (state w)) (world (handle ops ev w))).
Proof.
  unfold step, bind.
  destruct (value (handle ops ev w)) eqn:E; [reflexivity|].
  exfalso. exact (handle_catches ops ev w E).
Qed.

Lemma step_world ev w :
  world (step ops ev w) =
  world (callStatusEffect (callStatus (state w)) (world (handle ops ev w))).
Proof.
  unfold step, bind.
  destruct (value (handle ops ev w)) eqn:E; [reflexivity|].
  exfalso. exact (handle_catches ops ev w E).
Qed.

Lemma step_emits ev w :
  stage (call w) <> AwaitSettle ->
  Forall (fun e => responderMayEmit e = true) (effects (step ops ev w)).
Proof.
  intros Hst. rewrite step_effects. apply Forall_app. split.
  - unfold handle. apply dispatch_emits, Hst.
  - apply callStatusEffect_emits.
Qed.

(** A Responder never reaches the settle delay. *)
Lemma initializeCallSubscribed_responder :
  Maintains (fun w => isInitiator (props w) = false /\ stage (call w) <> AwaitSettle)
            (@initializeCallSubscribed PC).
Proof.
  intros w [Hr Hst]. unfold initializeCallSubscribed, bind, gets. cbn.
  rewrite Hr. cbn. split; [exact Hr | discriminate].
Qed.

Lemma step_responder ev :
  Maintains (fun w => isInitiator (props w) = false /\ stage (call w) <> AwaitSettle)
            (step ops ev).
Proof.
  apply step_maintains.
  - apply handle_maintains. intros st snap p ch now.
    by_event ev st p ch;
      repeat progress unfold initializeCall, initializeCallGranted,
        initializeCallCatch, initializeCallSettled, subscribeToSignaling,
        onSubscribeStatus, onSignaling, onTrack, onIceCandidate,
        onIceConnectionStateChange, toggleMute, handleEndCall, cleanup,
        stopTracks, clearCallTimer, sendSignalingMessage;
      maintains;
      try apply initializeCallSubscribed_responder;
      cbn in *; intuition congruence.
  - intros before. unfold_component. maintains.
Qed.

Lemma run_responder evs w :
  isInitiator (props w) = false -> stage (call w) <> AwaitSettle ->
  Forall (fun e => responderMayEmit e = true) (effects (run ops evs w)).
Proof.
  revert w. induction evs as [|ev evs IH]; intros w Hr Hst; cbn; [constructor|].
  apply Forall_app. split; [apply step_emits, Hst|].
  destruct (step_responder ev w (conj Hr Hst)) as [Hr' Hst'].
  apply IH; assumption.
Qed.


(** C2. The props, and with them the role [isInitiator], are the same
    after any sequence of events as when the session was created; a session
    created as Responder emits no Offer send (what it sends is an Answer, a
    Candidate or an end-call message); and the message handler itself, in
    either role, sends nothing but an Answer or an end-call message. *)
Theorem role_fixed_offer_only_from_initiator evs (w : @World PC) :
  stage (call w) = NotStarted ->
  isInitiator (props (world (run ops evs w))) = isInitiator (props w) /\
  (isInitiator (props w) = false ->
   Forall (fun e => responderMayEmit e = true) (effects (run ops evs w))) /\
  (forall p snap pl w',
     Forall (fun e => handlerMayEmit e = true)
            (effects (onSignaling ops p snap pl w'))).
Proof.
  intros Hst. split; [|split].
  - rewrite run_props. reflexivity.
  - intros Hr. apply run_responder; [exact Hr | congruence].
  - intros p snap pl w'. apply onSignaling_emits.
Qed.

End RoleFacts.

Section EndedFacts.

Context {PC : Type} (ops : PcOps PC).

Lemma dispatch_ended ev st snap p ch now :
  revives ev = false ->
  Maintains (fun w => callStatus (state w) = Ended)
            (dispatch ops ev st snap p ch now).
Proof.
  intros Hev. by_event ev st p ch; try discriminate; unfold_component; maintains.
  all: destruct s; try discriminate; maintains.
Qed.

Lemma callStatusEffect_status v before :
  Maintains (fun w => callStatus (state w) = v) (@callStatusEffect PC before).
Proof. unfold_component. maintains. Qed.

Lemma step_connected_revives p w :
  pcLocal (call w) = Some p ->
  callStatus (state (world (step ops (IceStateChange IceConnected) w))) = Connected.
Proof.
  intros Hp. rewrite (step_world ops).
  apply (callStatusEffect_status Connected).
  unfold handle. rewrite Hp. destruct (stage (call w)); reflexivity.
Qed.

Lemma step_track_revives p remote w :
  pcLocal (call w) = Some p ->
  callStatus (state (world (step ops (RemoteTrack remote) w))) = Connected.
Proof.
  intros Hp. rewrite (step_world ops).
  apply (callStatusEffect_status Connected).
  unfold handle. rewrite Hp. destruct (stage (call w)); reflexivity.
Qed.

(** C6 (as amended). [Ended] is the only terminal status of the code.
    Once [callStatus] is [Ended], no event changes it, whether an Offer,
    Answer, Candidate or end-call message, a connectivity change to
    failed, disconnected or any state but connected, or a local action;
    the two exceptions are a connectivity change to connected and an
    arriving remote track, which the handlers installed on the connection
    answer by setting [callStatus] to [Connected] whatever it was. *)
Theorem ended_kept_except_on_reconnection ev (w : @World PC) :
  callStatus (state w) = Ended ->
  (revives ev = false ->
   callStatus (state (world (step ops ev w))) = Ended) /\
  (forall p, pcLocal (call w) = Some p ->
   callStatus (state (world (step ops (IceStateChange IceConnected) w))) = Connected) /\
  (forall p remote, pcLocal (call w) = Some p ->
   callStatus (state (world (step ops (RemoteTrack remote) w))) = Connected).
Proof.
  intros Hended. split; [|split].
  - intros Hev.
    apply (step_maintains ops (fun w' => callStatus (state w') = Ended)).
    + apply handle_maintains. intros. apply dispatch_ended, Hev.
    + intros before. apply callStatusEffect_status.
    + exact Hended.
  - intros p Hp. apply (step_connected_revives p), Hp.
  - intros p remote Hp. apply (step_track_revives p), Hp.
Qed.

End EndedFacts.

Section OrderingFacts.

Context {PC : Type} (ops : PcOps PC).

Lemma confirmedThenDelayed_app pre ext :
  confirmedThenDelayed pre -> confirmedThenDelayed (pre ++ ext).
Proof.
  intros (a & b & c & ->). exists a, b, (c ++ ext).
  rewrite <- !app_assoc. cbn. rewrite <- !app_assoc. reflexivity.
Qed.

(** Where an element of [E ++ ext] lies. *)
Lemma split_app (E ext pre post : list Effect) e :
  E ++ ext = pre ++ e :: post ->
  (exists post', E = pre ++ e :: post') \/
  (exists pre', pre = E ++ pre' /\ ext = pre' ++ e :: post).
Proof.
  revert pre. induction E as [|x E IH]; intros pre H.
  - right. exists pre. cbn in H. auto.
  - destruct pre as [|y pre]; cbn in H; injection H as -> H.
    + left. exists E. reflexivity.
    + destruct (IH pre H) as [[post' ->] | (pre' & -> & ->)].
      * left. exists post'. reflexivity.
      * right. exists pre'. auto.
Qed.

Lemma not_in_offer_free (ext pre post : list Effect) e :
  Forall (fun e => isOfferSend e = false) ext ->
  ext = pre ++ e :: post -> isOfferSend e = true -> False.
Proof.
  intros H -> He. apply Forall_app in H as [_ H].
  inversion H; subst. congruence.
Qed.

(** Every other event leaves [initializeCall] where it is suspended, or
    moves it to a stage other than the settle delay. *)
Lemma dispatch_not_settling ev st snap p ch now :
  (forall status, ev <> SubscribeStatus status) ->
  Maintains (fun w => stage (call w) <> AwaitSettle)
            (dispatch ops ev st snap p ch now).
Proof.
  intros Hev. by_event ev st p ch; try (exfalso; eapply Hev; reflexivity);
    unfold_component; maintains.
Qed.

Lemma callStatusEffect_stage (I : Stage -> Prop) before :
  Maintains (fun w => I (stage (call w))) (@callStatusEffect PC before).
Proof. unfold_component. maintains. Qed.

Lemma callStatusEffect_same (w : @World PC) :
  effects (callStatusEffect (callStatus (state w)) w) = [].
Proof.
  unfold callStatusEffect, bind, gets. cbn.
  destruct (callStatus (state w)); reflexivity.
Qed.

(** The settle delay is entered by the confirmation of the subscription
    only, which requests the delay at once. *)
Lemma callStatusEffect_stage_eq before (w : @World PC) :
  stage (call (world (callStatusEffect before w))) = stage (call w).
Proof.
  apply (callStatusEffect_stage (fun s => s = stage (call w))). reflexivity.
Qed.

Lemma step_enters_settle ev (w : @World PC) :
  stage (call w) <> AwaitSettle ->
  stage (call (world (step ops ev w))) = AwaitSettle ->
  effects (step ops ev w) =
    [ConsoleLog "Channel subscription status: SUBSCRIBED"; SetTimeout 1000].
Proof.
  intros Hst Hafter.
  destruct ev as [| | |status| | | | | | | | |].
  4: {
    rewrite step_world, callStatusEffect_stage_eq in Hafter.
    rewrite step_effects.
    revert Hst Hafter.
    destruct w as [pr [ls pc mu cs cd] rf br [sg pl [c|] clo]];
      unfold handle, dispatch; cbn [call channelLocal stage state callStatus];
      unfold onSubscribeStatus; [|cbn; congruence].
    destruct (String.eqb status "SUBSCRIBED") eqn:Es; [|cbn; congruence].
    apply String.eqb_eq in Es. subst status.
    destruct sg, (isInitiator pr) eqn:Ei; cbn; rewrite ?Ei; cbn; try congruence.
    intros _ _. destruct cs; reflexivity.
  }
  all: exfalso; revert Hafter;
    apply (step_maintains ops (fun w' => stage (call w') <> AwaitSettle));
    [ apply handle_maintains; intros; apply dispatch_not_settling; discriminate
    | intros before; apply (callStatusEffect_stage (fun s => s <> AwaitSettle))
    | exact Hst ].
Qed.

Lemma step_offer_free ev (w : @World PC) :
  stage (call w) <> AwaitSettle ->
  Forall (fun e => isOfferSend e = false) (effects (step ops ev w)).
Proof.
  intros Hst. eapply Forall_impl; [apply step_emits, Hst|].
  intros e. apply responderMayEmit_not_offer.
Qed.

Lemma run_ordered evs : forall (w : @World PC) E,
  (forall pre e post,
     E = pre ++ e :: post -> isOfferSend e = true -> confirmedThenDelayed pre) ->
  (stage (call w) = AwaitSettle -> confirmedThenDelayed E) ->
  forall pre e post,
    E ++ effects (run ops evs w) = pre ++ e :: post ->
    isOfferSend e = true -> confirmedThenDelayed pre.
Proof.
  induction evs as [|ev evs IH]; intros w E Hord Hset pre e post Heq He.
  - cbn in Heq. rewrite app_nil_r in Heq. eapply Hord; eassumption.
  - cbn in Heq. rewrite app_assoc in Heq.
    refine (IH (world (step ops ev w)) (E ++ effects (step ops ev w)) _ _ _ _ _ Heq He).
    + intros pre1 e1 post1 Heq1 He1.
      destruct (split_app _ _ _ _ _ Heq1) as [[post' HE] | (pre' & -> & Hext)].
      * eapply Hord; eassumption.
      * destruct (stage (call w)) eqn:Est;
          try (exfalso; eapply not_in_offer_free;
               [apply (step_offer_free ev w); congruence | exact Hext | exact He1]).
        apply confirmedThenDelayed_app, Hset. reflexivity.
    + intros Hafter.
      destruct (stage (call w)) eqn:Est;
        try (rewrite (step_enters_settle ev w) by congruence;
             exists E, [], []; reflexivity).
      apply confirmedThenDelayed_app, Hset. reflexivity.
Qed.

(** An Offer is sent by the continuation after the settle delay only. *)
Lemma dispatch_emits_unless_settled ev st snap p ch now :
  ev <> SettleElapsed ->
  Emits (fun e => responderMayEmit e = true) (dispatch ops ev st snap p ch now).
Proof.
  intros Hev. by_event ev st p ch; try congruence; unfold_component; emits.
Qed.

Lemma step_sends_offer ev (w : @World PC) a e b :
  effects (step ops ev w) = a ++ e :: b -> isOfferSend e = true ->
  ev = SettleElapsed /\ stage (call w) = AwaitSettle.
Proof.
  intros Heq He.
  assert (Hin : ~ Forall (fun e => isOfferSend e = false) (effects (step ops ev w))).
  { intros H. eapply not_in_offer_free; eassumption. }
  split.
  - destruct ev; try reflexivity; exfalso; apply Hin;
      (eapply Forall_impl; [|intros e'; apply responderMayEmit_not_offer]);
      rewrite step_effects; apply Forall_app;
      (split; [unfold handle; apply dispatch_emits_unless_settled; discriminate
              | apply callStatusEffect_emits]).
  - destruct (stage (call w)) eqn:Est; try reflexivity;
      exfalso; apply Hin, step_offer_free; congruence.
Qed.

(** Which event emitted a given effect of a run. *)
Lemma run_locate evs : forall (w : @World PC) pre e post,
  effects (run ops evs w) = pre ++ e :: post ->
  exists evsA ev evsB a b,
    evs = evsA ++ ev :: evsB /\
    pre = effects (run ops evsA w) ++ a /\
    effects (step ops ev (world (run ops evsA w))) = a ++ e :: b.
Proof.
  induction evs as [|ev evs IH]; intros w pre e post Heq.
  - destruct pre; discriminate.
  - change (effects (run ops (ev :: evs) w))
      with (effects (step ops ev w) ++ effects (run ops evs (world (step ops ev w))))
      in Heq.
    destruct (split_app _ _ _ _ _ Heq) as [[post' HE] | (pre' & -> & Hext)].
    + exists [], ev, evs, pre, post'. repeat split. exact HE.
    + destruct (IH _ _ _ _ Hext) as (evsA & ev' & evsB & a & b & -> & -> & Hstep).
      exists (ev :: evsA), ev', evsB, a, b. repeat split.
      * change (effects (run ops (ev :: evsA) w))
          with (effects (step ops ev w) ++
                effects (run ops evsA (world (step ops ev w)))).
        rewrite app_assoc. reflexivity.
      * exact Hstep.
Qed.

Lemma step_enters_settle_event ev (w : @World PC) :
  stage (call w) <> AwaitSettle ->
  stage (call (world (step ops ev w))) = AwaitSettle ->
  ev = SubscribeStatus "SUBSCRIBED".
Proof.
  intros Hst Hafter.
  destruct ev as [| | |status| | | | | | | | |].
  4: {
    rewrite step_world, callStatusEffect_stage_eq in Hafter.
    revert Hst Hafter.
    destruct w as [pr [ls pc mu cs cd] rf br [sg pl [c|] clo]];
      unfold handle, dispatch; cbn [call channelLocal stage state callStatus];
      unfold onSubscribeStatus; [|cbn; congruence].
    destruct (String.eqb status "SUBSCRIBED") eqn:Es; [|cbn; congruence].
    apply String.eqb_eq in Es. subst status. reflexivity.
  }
  all: exfalso; revert Hafter;
    apply (step_maintains ops (fun w' => stage (call w') <> AwaitSettle));
    [ apply handle_maintains; intros; apply dispatch_not_settling; discriminate
    | intros before; apply (callStatusEffect_stage (fun s => s <> AwaitSettle))
    | exact Hst ].
Qed.

(** The settle delay is pending only after a report of SUBSCRIBED that
    requested it. *)
Lemma run_reaches_settle evs : forall (w : @World PC),
  stage (call w) <> AwaitSettle ->
  stage (call (world (run ops evs w))) = AwaitSettle ->
  exists evs1 evs2,
    evs = evs1 ++ SubscribeStatus "SUBSCRIBED" :: evs2 /\
    effects (step ops (SubscribeStatus "SUBSCRIBED") (world (run ops evs1 w))) =
      [ConsoleLog "Channel subscription status: SUBSCRIBED"; SetTimeout 1000].
Proof.
  induction evs as [|ev evs IH]; intros w Hst Hafter.
  - cbn in Hafter. congruence.
  - change (world (run ops (ev :: evs) w))
      with (world (run ops evs (world (step ops ev w)))) in Hafter.
    destruct (stage (call (world (step ops ev w)))) eqn:Est.
    4: {
      pose proof (step_enters_settle_event ev w Hst Est) as ->.
      exists [], evs. split; [reflexivity|].
      apply (step_enters_settle _ w Hst Est).
    }
    all: destruct (IH (world (step ops ev w))) as (evs1 & evs2 & -> & Hreq);
      [congruence | exact Hafter |];
      exists (ev :: evs1), evs2; split; [reflexivity | exact Hreq].
Qed.

(** C5. In every execution of a session, an Offer is sent only after the
    subscription callback reported SUBSCRIBED (which resolves the promise
    [initializeCall] awaits) and after the settle delay of 1000 ms was
    requested following that report: the effects before any Offer send
    contain the confirmation and, later, the 1000 ms timeout. The delay
    lies between the two: the handling of the report only logs it and
    requests the timeout, and the Offer is sent while a later event, the
    firing of that timeout, is handled. *)
Theorem offer_follows_confirmation_and_delay evs (w : @World PC) :
  stage (call w) = NotStarted ->
  forall pre topic pl ok post,
    effects (run ops evs w) = pre ++ ChannelSend topic pl ok :: post ->
    isOffer (message pl) = true ->
    confirmedThenDelayed pre /\
    sentWhenDelayElapsed ops evs w pre (ChannelSend topic pl ok).
Proof.
  intros Hst pre topic pl ok post Heq Hoffer. split.
  - apply (run_ordered evs w [] ) with (e := ChannelSend topic pl ok) (post := post).
    + intros [|x pre1] e1 post1 H; discriminate.
    + congruence.
    + exact Heq.
    + exact Hoffer.
  - destruct (run_locate evs w _ _ _ Heq) as (evsA & ev & evsB & a & b & -> & -> & Hstep).
    destruct (step_sends_offer _ _ _ _ _ Hstep Hoffer) as [-> Hsettle].
    destruct (run_reaches_settle evsA w) as (evs1 & evs2 & -> & Hreq);
      [congruence | exact Hsettle |].
    exists evs1, evs2, evsB, a, b. repeat split.
    + rewrite <- app_assoc. reflexivity.
    + exact Hreq.
    + exact Hstep.
Qed.

End OrderingFacts.

(** ** Running a computation on a given world *)

Section RunLemmas.

Context {PC : Type}.

Lemma run_bind {A B} (m : M A) (k : A -> @M PC B) w w1 E1 v1 w2 E2 v2 :
  m w = mkOut w1 E1 v1 ->
  match v1 with Some a => k a w1 | None => mkOut w1 [] None end = mkOut w2 E2 v2 ->
  bind m k w = mkOut w2 (E1 ++ E2) v2.
Proof.
  intros Hm Hk. unfold bind. rewrite Hm. cbn.
  destruct v1 as [a|].
  - rewrite Hk. reflexivity.
  - injection Hk as <- <- <-. rewrite app_nil_r. reflexivity.
Qed.

Lemma run_tryCatch (body handler : @M PC unit) w w1 E1 v1 w2 E2 v2 :
  body w = mkOut w1 E1 v1 ->
  match v1 with Some _ => mkOut w1 [] v1 | None => handler w1 end = mkOut w2 E2 v2 ->
  tryCatch body handler w = mkOut w2 (E1 ++ E2) v2.
Proof.
  intros Hb Hh. unfold tryCatch. rewrite Hb. cbn.
  destruct v1 as [a|].
  - injection Hh as <- <- <-. rewrite app_nil_r. reflexivity.
  - rewrite Hh. reflexivity.
Qed.

Lemma run_forEach_emit {A} (g : A -> Effect) l (w : @World PC) :
  forEach (fun i => emit (g i)) l w = mkOut w (map g l) (Some tt).
Proof.
  revert w. induction l as [|x l IH]; intros w; cbn; [reflexivity|].
  unfold bind. cbn. rewrite IH. reflexivity.
Qed.

Lemma run_invokeTotal_some p c (f : PC -> PC) (w : @World PC) x :
  pcs (browser w) !! p = Some x ->
  invokeTotal p c f w =
  mkOut (setPcs (<[p := f x]>) w) [PcInvoke p c true] (Some tt).
Proof. intros H. unfold invokeTotal. rewrite H. reflexivity. Qed.

Lemma run_invokeTotal_none p c (f : PC -> PC) (w : @World PC) :
  pcs (browser w) !! p = None ->
  invokeTotal p c f w = mkOut w [] (Some tt).
Proof. intros H. unfold invokeTotal. rewrite H. reflexivity. Qed.

Lemma run_invoke_some {A} p c (f : PC -> PC * option A) (w : @World PC) x :
  pcs (browser w) !! p = Some x ->
  invoke p c f w =
  mkOut (setPcs (<[p := fst (f x)]>) w)
        [PcInvoke p c (isSome (snd (f x)))] (snd (f x)).
Proof. intros H. unfold invoke. rewrite H. reflexivity. Qed.

Lemma run_invoke_none {A} p c (f : PC -> PC * option A) (w : @World PC) :
  pcs (browser w) !! p = None ->
  invoke p c f w = mkOut w [] None.
Proof. intros H. unfold invoke. rewrite H. reflexivity. Qed.

End RunLemmas.

(** Reduce reads and writes of the world's fields, and nothing else. *)
Ltac world_simpl :=
  cbv [withState withRefs withBrowser withCall
       setLocalStream setPeerConnection setIsMuted setCallStatus setCallDuration
       setChannelRef setCallTimerRef setAudioSrcObject
       setStreams setPcs setSendOutcomes setNextTimer
       setStage setPcLocal setChannelLocal setClosure];
  cbn [props state refs browser call
       chatId currentUserId otherUserId otherUserName isInitiator
       localStream peerConnection isMuted callStatus callDuration
       channelRef callTimerRef audioSrcObject
       streams pcs sendOutcomes nextTimer
       stage pcLocal channelLocal closure
       isSome negb sameStatus to from message extra messageType
       world effects value fst snd].

Ltac use_results :=
  repeat match goal with
         | H : ?t = (_, _) |- context [?t] => rewrite H
         end.

Ltac lookup_pc :=
  world_simpl;
  first [ eassumption
        | rewrite list_lookup_insert_eq; [reflexivity|];
          rewrite ?length_insert; eapply lookup_lt_Some; eassumption ].

Ltac head_of t := lazymatch t with ?f _ => head_of f | _ => t end.

(** Run a computation, step by step, on a world whose fields that are
    read are known: proves [m w = ?out] and finds [?out]. *)
Ltac exec :=
  world_simpl; rewrite ?String.eqb_refl; use_results; world_simpl; cbv beta iota;
  lazymatch goal with
  | |- bind _ _ _ = _ => eapply run_bind; [exec | exec]
  | |- tryCatch _ _ _ = _ => eapply run_tryCatch; [exec | exec]
  | |- forEach (fun i => emit _) _ _ = _ => apply run_forEach_emit
  | |- invokeTotal _ _ _ _ = _ =>
      first [ eapply run_invokeTotal_some; lookup_pc
            | eapply run_invokeTotal_none; lookup_pc ]
  | |- invoke _ _ _ _ = _ =>
      first [ eapply run_invoke_some; lookup_pc
            | eapply run_invoke_none; lookup_pc ]
  | |- mkOut _ _ _ = _ => reflexivity
  | |- ret _ _ = _ => reflexivity
  | |- gets _ _ = _ => reflexivity
  | |- modify _ _ = _ => reflexivity
  | |- emit _ _ = _ => reflexivity
  | |- throw _ = _ => reflexivity
  | |- channelSend _ _ _ = _ => unfold channelSend; world_simpl; reflexivity
  | |- (match ?x with _ => _ end) _ = _ => fail 0 "not known:" x
  | |- ?m _ = _ => let h := head_of m in unfold h; exec
  end.

(** Replace the computation [t] in the goal by its outcome. *)
Ltac evaluate t :=
  let H := fresh "Hrun" in
  eassert (H : t = _) by exec;
  rewrite !H; clear H; world_simpl; use_results; world_simpl.

Ltac explode w :=
  destruct w as [[chat me other oname ini] [ls cn mu cs cd] [chr tr au]
                   [ss ps so nt] [sg lpc lch clo]].

Section HandlerFacts.

Context {PC : Type} (ops : PcOps PC).

Lemma filter_trackStop (f : Effect -> bool) s l :
  (forall i, f (TrackStop s i) = false) ->
  List.filter f (map (TrackStop s) l) = [].
Proof.
  intros Hf. induction l as [|i l IH]; cbn; [reflexivity|].
  rewrite Hf. exact IH.
Qed.

(** C10. A remote end-call message that reaches the session while its
    channel is attached makes it send an end-call message back on that
    channel, addressed to the peer, before anything is released: the send
    directly follows the three log lines, and the removal of the channel
    comes after it. *)
Theorem remote_hangup_is_answered_before_release p snap pl (w : @World PC) c :
  to pl = currentUserId (props w) ->
  message pl = EndCall ->
  channelRef (refs w) = Some c ->
  exists ok rest,
    effects (onSignaling ops p snap pl w) =
      [ConsoleLog "Received signaling message: end-call";
       ConsoleLog "Call ended by remote peer";
       ConsoleLog "Sending signaling message: end-call";
       ChannelSend c (mkPayload (currentUserId (props w)) (otherUserId (props w))
                                EndCall []) ok]
      ++ rest /\
    In (RemoveChannel c) rest /\
    channelRef (refs (world (onSignaling ops p snap pl w))) = None.
Proof.
  explode w. destruct pl as [f t m x], snap as [sls spc smu scs scd].
  intros H1 H2 H3. cbn in H1, H2, H3. subst.
  destruct so as [|[] so], sls as [s|], spc as [q|], tr as [ti|];
    try destruct (ps !! q) eqn:Eq.
  all: match goal with
       | |- context [onSignaling ?a ?b ?c ?d ?e] => evaluate (onSignaling a b c d e)
       end.
  all: eexists _, _; split; [cbn; reflexivity|].
  all: split; [|reflexivity].
  all: cbn; rewrite ?in_app_iff; cbn; intuition auto.
Qed.

(** C3 (as amended). A message whose [to] is not the local participant
    changes nothing and has no effect. That is the only filter: the
    handler reads [to] and [message] and nothing else of the payload, so
    what a message carries besides (its sender, a session identifier or any
    other property) makes no difference to how it is processed. *)
Theorem only_the_recipient_is_checked p snap pl (w : @World PC) :
  (to pl <> currentUserId (props w) ->
   onSignaling ops p snap pl w = mkOut w [] (Some tt)) /\
  (forall sender more,
     onSignaling ops p snap (mkPayload sender (to pl) (message pl) more) w =
     onSignaling ops p snap pl w).
Proof.
  split.
  - intros Hto. apply String.eqb_neq in Hto.
    unfold onSignaling, bind, gets. cbn [value world effects].
    rewrite Hto. reflexivity.
  - intros sender more. destruct pl. reflexivity.
Qed.

Lemma no_candidate_no_addIceCandidate p snap pl :
  (forall c, message pl <> IceCandidate c) ->
  Emits (fun e => isAddIceCandidate e = false) (onSignaling ops p snap pl).
Proof.
  intros Hm. unfold onSignaling. destruct (message pl) eqn:Em;
    try (exfalso; eapply Hm; reflexivity); unfold_component; emits.
Qed.

(** C1 (as amended). The session keeps no buffer of candidates. A
    Candidate message addressed to the local participant is handed to the
    connection's [addIceCandidate] at once and exactly once, whether or not
    a remote description has been applied; when the connection rejects it,
    the error is logged and the session goes on unchanged. No other message
    leads to an [addIceCandidate] call: applying a remote description
    replays nothing. *)
Theorem candidate_is_handed_over_at_once p snap pl c (w : @World PC) x :
  to pl = currentUserId (props w) ->
  message pl = IceCandidate c ->
  pcs (browser w) !! p = Some x ->
  let o := onSignaling ops p snap pl w in
  let r := pcAddIceCandidate ops x c in
  (effects o =
     [ConsoleLog "Received signaling message: ice-candidate";
      ConsoleLog "Adding ICE candidate";
      PcInvoke p (AddIceCandidate c) (isSome (snd r))]
     ++ (if isSome (snd r) then []
         else [ConsoleError "Error processing signaling message:"])) /\
  world o = setPcs (<[p := fst r]>) w /\
  value o = Some tt /\
  (forall pl' w',
     (forall c', message pl' <> IceCandidate c') ->
     Forall (fun e => isAddIceCandidate e = false)
            (effects (onSignaling ops p snap pl' w'))).
Proof.
  intros Hto Hm Hx o r. subst o r.
  split; [|split; [|split]].
  4: { intros pl' w' Hno. apply no_candidate_no_addIceCandidate, Hno. }
  all: explode w; destruct pl as [f t m more]; cbn in Hto, Hm, Hx; subst.
  all: destruct (pcAddIceCandidate ops x c) as [x' [[]|]] eqn:Er.
  all: match goal with
       | |- context [onSignaling ?a ?b ?c ?d ?e] => evaluate (onSignaling a b c d e)
       end.
  all: reflexivity.
Qed.


Ltac count_effects :=
  cbn; rewrite ?List.filter_app; cbn;
  rewrite ?filter_trackStop by (intros; reflexivity); cbn.




(** C7 (as amended). When the connection reports [failed] or
    [disconnected], the handler ends the call through [handleEndCall]:
    [callStatus] becomes [Ended] (the code has no separate failed status),
    the channel is detached, nothing is thrown, and an end-call message is
    sent to the peer whenever the channel is attached, before the channel
    is removed. *)
Theorem connectivity_loss_ends_call_with_hangup snap s (w : @World PC) :
  s = IceFailed \/ s = IceDisconnected ->
  let o := onIceConnectionStateChange ops snap s w in
  value o = Some tt /\
  callStatus (state (world o)) = Ended /\
  channelRef (refs (world o)) = None /\
  List.filter (fun e => isSend e || isRemoveChannel e) (effects o) =
    match channelRef (refs w) with
    | Some c =>
        [ChannelSend c
           (mkPayload (currentUserId (props w)) (otherUserId (props w)) EndCall [])
           (List.hd true (sendOutcomes (browser w)));
         RemoveChannel c]
    | None => []
    end.
Proof.
  intros Hs o. subst o. explode w. destruct snap as [ls1 pc1 mu1 cs1 cd1].
  destruct so as [|[] so], chr as [c|], tr as [ti|], ls1 as [s1|], pc1 as [q1|];
    try destruct (ps !! q1) as [x1|] eqn:E1.
  all: destruct Hs; subst s.
  all: match goal with
       | |- context [onIceConnectionStateChange ?a ?b ?c ?d] =>
           evaluate (onIceConnectionStateChange a b c d)
       end.
  all: repeat split; count_effects; reflexivity.
Qed.



(** C9 (as amended). [toggleMute] is purely local. It emits no effect at
    all: no signaling message, no call on the connection, hence no
    renegotiation. When the state it captured holds a local stream, it
    flips [enabled] on every audio track of that stream and sets [isMuted]
    to the negation of the captured flag; every other part of the world is
    left as it was. When it holds no stream, the call does nothing. *)
Theorem toggleMute_is_local snap (w : @World PC) :
  let o := toggleMute snap w in
  effects o = [] /\ value o = Some tt /\
  props (world o) = props w /\ refs (world o) = refs w /\
  call (world o) = call w /\
  pcs (browser (world o)) = pcs (browser w) /\
  sendOutcomes (browser (world o)) = sendOutcomes (browser w) /\
  nextTimer (browser (world o)) = nextTimer (browser w) /\
  localStream (state (world o)) = localStream (state w) /\
  peerConnection (state (world o)) = peerConnection (state w) /\
  callStatus (state (world o)) = callStatus (state w) /\
  callDuration (state (world o)) = callDuration (state w) /\
  match localStream snap with
  | Some s =>
      isMuted (state (world o)) = negb (isMuted snap) /\
      (forall tracks, streams (browser w) !! s = Some tracks ->
         streams (browser (world o)) !! s = Some (map toggleEnabled tracks)) /\
      (forall i, i <> s ->
         streams (browser (world o)) !! i = streams (browser w) !! i) /\
      (forall t, kind t = AudioTrack ->
         enabled (toggleEnabled t) = negb (enabled t) /\
         kind (toggleEnabled t) = kind t /\ stopped (toggleEnabled t) = stopped t) /\
      (forall t, kind t = VideoTrack -> toggleEnabled t = t)
  | None => world o = w
  end.
Proof.
  intros o. subst o. explode w. destruct snap as [[s|] pc1 mu1 cs1 cd1].
  - evaluate (@toggleMute PC (mkReactState (Some s) pc1 mu1 cs1 cd1)
                (mkWorld (mkProps chat me other oname ini) (mkReactState ls cn mu cs cd)
                         (mkRefs chr tr au) (mkBrowser ss ps so nt)
                         (mkInvocation sg lpc lch clo))).
    repeat split; try reflexivity.
    + intros tracks Ht.
      rewrite list_lookup_alter_eq, Ht. reflexivity.
    + intros i Hi. apply list_lookup_alter_ne. congruence.
    + unfold toggleEnabled. rewrite H. reflexivity.
    + unfold toggleEnabled. rewrite H. reflexivity.
    + unfold toggleEnabled. rewrite H. reflexivity.
    + intros t Ht. unfold toggleEnabled. rewrite Ht. reflexivity.
  - repeat split; reflexivity.
Qed.


End HandlerFacts.

(** * The component on concrete calls *)

(** C1, counterexample. A Responder receives a Candidate and then the
    Offer. The candidate goes to the connection before any remote
    description is applied and is rejected; once the Offer is applied, the
    candidate is not applied again: the connection ends up with the remote
    description and no candidate. *)
Lemma candidate_before_offer_is_lost :
  let o := run rtcOps (subscribing ++ [Signaling bobCandidate; Signaling bobOffer])
               (mounted (alice false) []) in
  List.filter isAddIceCandidate (effects o) =
    [PcInvoke 0 (AddIceCandidate "candidate-1") false] /\
  remoteDescription <$> pcs (browser (world o)) !! 0 =
    Some (Some (mkDescription "offer" "remote-offer")) /\
  remoteCandidates <$> pcs (browser (world o)) !! 0 = Some [].
Proof. vm_compute. repeat split; reflexivity. Qed.

Lemma candidate_is_handed_over_at_once_witness :
  let w := world (run rtcOps subscribing (mounted (alice false) [])) in
  let x := mkRtcPc [microphone] None None [] false in
  to bobCandidate = currentUserId (props w) /\
  message bobCandidate = IceCandidate "candidate-1" /\
  pcs (browser w) !! 0 = Some x /\
  effects (onSignaling rtcOps 0 (closure (call w)) bobCandidate w) =
    [ConsoleLog "Received signaling message: ice-candidate";
     ConsoleLog "Adding ICE candidate";
     PcInvoke 0 (AddIceCandidate "candidate-1") false;
     ConsoleError "Error processing signaling message:"].
Proof.
  intros w x.
  assert (H1 : to bobCandidate = currentUserId (props w)) by reflexivity.
  assert (H2 : message bobCandidate = IceCandidate "candidate-1") by reflexivity.
  assert (H3 : pcs (browser w) !! 0 = Some x) by reflexivity.
  refine (conj H1 (conj H2 (conj H3 _))).
  exact (proj1 (candidate_is_handed_over_at_once rtcOps 0 (closure (call w))
                  bobCandidate "candidate-1" w x H1 H2 H3)).
Defined.

Lemma role_fixed_offer_only_from_initiator_witness :
  let w := mounted (alice false) [] in
  let evs := subscribing ++ [Signaling bobOffer; LocalCandidate (Some "candidate-2")] in
  stage (call w) = NotStarted /\
  isInitiator (props w) = false /\
  isInitiator (props (world (run rtcOps evs w))) = false /\
  Forall (fun e => responderMayEmit e = true) (effects (run rtcOps evs w)).
Proof.
  intros w evs.
  assert (H1 : stage (call w) = NotStarted) by reflexivity.
  assert (H2 : isInitiator (props w) = false) by reflexivity.
  destruct (role_fixed_offer_only_from_initiator rtcOps evs w H1) as (Ha & Hb & _).
  refine (conj H1 (conj H2 (conj _ (Hb H2)))).
  rewrite Ha. exact H2.
Defined.

(** C3, counterexample. An end-call message addressed to the local
    participant and tagged with the identifier of an earlier call is
    processed like any other: it ends the connected call. *)
Lemma stale_session_message_is_processed :
  let w := world (run rtcOps connecting (mounted (alice true) [])) in
  let o := step rtcOps (Signaling staleHangup) w in
  to staleHangup = currentUserId (props w) /\
  extra staleHangup = [("sessionId", "an-earlier-call")] /\
  chatId (props w) = "chat-1" /\
  callStatus (state w) = Connected /\
  callStatus (state (world o)) = Ended /\
  channelRef (refs w) = Some "audio-call-chat-1" /\
  channelRef (refs (world o)) = None.
Proof. vm_compute. repeat split; reflexivity. Qed.

Lemma only_the_recipient_is_checked_witness :
  let w := world (run rtcOps connecting (mounted (alice true) [])) in
  to forCarol <> currentUserId (props w) /\
  onSignaling rtcOps 0 (closure (call w)) forCarol w = mkOut w [] (Some tt).
Proof.
  intros w.
  assert (H : to forCarol <> currentUserId (props w)) by (vm_compute; discriminate).
  split; [exact H|].
  exact (proj1 (only_the_recipient_is_checked rtcOps 0 (closure (call w)) forCarol w) H).
Defined.



Lemma offer_follows_confirmation_and_delay_witness :
  let w := mounted (alice true) [] in
  let evs := subscribing ++ [SettleElapsed] in
  let offer := mkPayload "alice" "bob" (Offer (mkDescription "offer" "local-offer")) [] in
  let pre :=
    [ConsoleLog "AudioCall opened, isInitiator:";
     ConsoleLog "Initializing audio call, requesting microphone access...";
     GetUserMedia;
     ConsoleLog "Microphone access granted, got stream:";
     NewPeerConnection 0;
     ConsoleLog "PeerConnection created";
     ConsoleLog "Adding audio track";
     PcInvoke 0 (AddTrack microphone) true;
     Subscribe "audio-call-chat-1";
     ConsoleLog "Channel subscription status: SUBSCRIBED";
     SetTimeout 1000;
     ConsoleLog "Creating offer as initiator";
     PcInvoke 0 CreateOffer true;
     PcInvoke 0 (SetLocalDescription (mkDescription "offer" "local-offer")) true;
     ConsoleLog "Sending offer";
     ConsoleLog "Sending signaling message: offer"] in
  stage (call w) = NotStarted /\
  effects (run rtcOps evs w) = pre ++ ChannelSend "audio-call-chat-1" offer true :: [] /\
  isOffer (message offer) = true /\
  confirmedThenDelayed pre /\
  sentWhenDelayElapsed rtcOps evs w pre (ChannelSend "audio-call-chat-1" offer true).
Proof.
  intros w evs offer pre.
  assert (H1 : stage (call w) = NotStarted) by reflexivity.
  assert (H2 : effects (run rtcOps evs w) =
               pre ++ ChannelSend "audio-call-chat-1" offer true :: [])
    by (vm_compute; reflexivity).
  assert (H3 : isOffer (message offer) = true) by reflexivity.
  refine (conj H1 (conj H2 (conj H3 _))).
  exact (offer_follows_confirmation_and_delay rtcOps evs w H1 pre
           "audio-call-chat-1" offer true [] H2 H3).
Defined.

(** C6, counterexample. The connection reports [disconnected]: the call is
    ended, though the connection itself is still open. It then reports
    [connected] again, and [callStatus] leaves [Ended]. *)
Lemma ended_call_becomes_connected_again :
  let w := world (run rtcOps (connecting ++ [IceStateChange IceDisconnected])
                      (mounted (alice true) [])) in
  callStatus (state w) = Ended /\
  closed <$> pcs (browser w) !! 0 = Some false /\
  callStatus (state (world (step rtcOps (IceStateChange IceConnected) w))) = Connected.
Proof. vm_compute. repeat split; reflexivity. Qed.

Lemma ended_kept_except_on_reconnection_witness :
  let w := world (run rtcOps (connecting ++ [IceStateChange IceDisconnected])
                      (mounted (alice true) [])) in
  callStatus (state w) = Ended /\
  revives (Signaling bobOffer) = false /\
  callStatus (state (world (step rtcOps (Signaling bobOffer) w))) = Ended /\
  pcLocal (call w) = Some 0 /\
  callStatus (state (world (step rtcOps (IceStateChange IceConnected) w))) = Connected /\
  callStatus (state (world (step rtcOps (RemoteTrack 0) w))) = Connected.
Proof.
  intros w.
  assert (H1 : callStatus (state w) = Ended) by reflexivity.
  assert (H2 : revives (Signaling bobOffer) = false) by reflexivity.
  assert (H3 : pcLocal (call w) = Some 0) by reflexivity.
  pose proof (ended_kept_except_on_reconnection rtcOps (Signaling bobOffer) w H1)
    as (Hkept & Hice & Htrack).
  exact (conj H1 (conj H2 (conj (Hkept H2) (conj H3 (conj (Hice 0 H3) (Htrack 0 0 H3)))))).
Defined.

(** C7, counterexample. The connection of a connected call reports
    [failed]: an end-call message is sent to the peer. *)
Lemma connectivity_failure_sends_hangup :
  let w := world (run rtcOps connecting (mounted (alice true) [])) in
  let o := step rtcOps (IceStateChange IceFailed) w in
  callStatus (state w) = Connected /\
  List.filter isSend (effects o) =
    [ChannelSend "audio-call-chat-1" (mkPayload "alice" "bob" EndCall []) true] /\
  callStatus (state (world o)) = Ended.
Proof. vm_compute. repeat split; reflexivity. Qed.

Lemma connectivity_loss_ends_call_with_hangup_witness :
  let w := world (run rtcOps connecting (mounted (alice true) [])) in
  let o := onIceConnectionStateChange rtcOps (closure (call w)) IceFailed w in
  (IceFailed = IceFailed \/ IceFailed = IceDisconnected) /\
  value o = Some tt /\
  callStatus (state (world o)) = Ended.
Proof.
  intros w o.
  assert (H : IceFailed = IceFailed \/ IceFailed = IceDisconnected) by (left; reflexivity).
  split; [exact H|].
  destruct (connectivity_loss_ends_call_with_hangup rtcOps (closure (call w)) IceFailed w H)
    as (Hv & Hs & _).
  split; [exact Hv | exact Hs].
Defined.



(** C9, counterexample. With no local stream held, [toggleMute] leaves
    the muted flag as it is. *)
Lemma toggleMute_without_stream_keeps_flag :
  let w := world (run rtcOps
                      (connecting ++ [IceStateChange IceDisconnected;
                                      IceStateChange IceConnected])
                      (mounted (alice true) [])) in
  callStatus (state w) = Connected /\
  localStream (state w) = None /\
  isMuted (state w) = false /\
  isMuted (state (world (toggleMute (state w) w))) = false /\
  isMuted (state (world (step rtcOps ClickMute w))) = false.
Proof. vm_compute. repeat split; reflexivity. Qed.

Lemma toggleMute_is_local_witness :
  let w := world (run rtcOps connecting (mounted (alice true) [])) in
  let w' := world (step rtcOps ClickMute w) in
  streams (browser w) !! 0 = Some [microphone] /\
  streams (browser (world (toggleMute (state w') w'))) !! 0 = Some [microphone].
Proof.
  intros w w'.
  assert (H0 : streams (browser w) !! 0 = Some [microphone]) by reflexivity.
  split; [exact H0|].
  assert (H1 : streams (browser w') !! 0 = Some [mkTrack AudioTrack false false])
    by (vm_compute; reflexivity).
  pose proof (toggleMute_is_local (state w') w') as H.
  cbv zeta in H.
  destruct H as (_ & _ & _ & _ & _ & _ & _ & _ & _ & _ & _ & _ & H).
  change (localStream (state w')) with (Some 0) in H.
  destruct H as (_ & H & _).
  exact (H _ H1).
Defined.

Lemma remote_hangup_is_answered_before_release_witness :
  let w := world (run rtcOps connecting (mounted (alice true) [])) in
  let pl := mkPayload "bob" "alice" EndCall [] in
  to pl = currentUserId (props w) /\
  message pl = EndCall /\
  channelRef (refs w) = Some "audio-call-chat-1" /\
  exists ok rest,
    effects (onSignaling rtcOps 0 (closure (call w)) pl w) =
      [ConsoleLog "Received signaling message: end-call";
       ConsoleLog "Call ended by remote peer";
       ConsoleLog "Sending signaling message: end-call";
       ChannelSend "audio-call-chat-1" (mkPayload "alice" "bob" EndCall []) ok]
      ++ rest /\
    In (RemoveChannel "audio-call-chat-1") rest /\
    channelRef (refs (world (onSignaling rtcOps 0 (closure (call w)) pl w))) = None.
Proof.
  intros w pl.
  assert (H1 : to pl = currentUserId (props w)) by reflexivity.
  assert (H2 : message pl = EndCall) by reflexivity.
  assert (H3 : channelRef (refs w) = Some "audio-call-chat-1") by reflexivity.
  refine (conj H1 (conj H2 (conj H3 _))).
  exact (remote_hangup_is_answered_before_release rtcOps 0 (closure (call w)) pl w
           "audio-call-chat-1" H1 H2 H3).
Defined.

(** * Further properties of the component *)


(** * More of the component *)

Section KeepsLogic.

Context {PC : Type}.
Implicit Types (I : @World PC -> Prop) (P : Effect -> Prop).

Lemma Keeps_ret {A} I P (a : A) : Keeps I P (@ret PC A a).
Proof. intros w H. split; [exact H | constructor]. Qed.

Lemma Keeps_throw {A} I P : Keeps I P (@throw PC A).
Proof. intros w H. split; [exact H | constructor]. Qed.

Lemma Keeps_gets {A} I P (f : @World PC -> A) : Keeps I P (gets f).
Proof. intros w H. split; [exact H | constructor]. Qed.

Lemma Keeps_emit I P e : P e -> Keeps I P (@emit PC e).
Proof. intros He w H. split; [exact H | cbn; auto]. Qed.

Lemma Keeps_modify I P (f : @World PC -> @World PC) :
  (forall w, I w -> I (f w)) -> Keeps I P (modify f).
Proof. intros Hf w H. split; [cbn; auto | constructor]. Qed.

Lemma Keeps_bind {A B} I P (m : M A) (k : A -> @M PC B) :
  Keeps I P m -> (forall a, Keeps I P (k a)) -> Keeps I P (bind m k).
Proof.
  intros Hm Hk w H. unfold bind. destruct (Hm w H) as [HI HP].
  destruct (value (m w)) as [a|]; cbn; [|auto].
  destruct (Hk a _ HI) as [HI' HP']. split; [exact HI'|].
  apply Forall_app. auto.
Qed.

Lemma Keeps_tryCatch I P (body handler : @M PC unit) :
  Keeps I P body -> Keeps I P handler -> Keeps I P (tryCatch body handler).
Proof.
  intros Hb Hh w H. unfold tryCatch. destruct (Hb w H) as [HI HP].
  destruct (value (body w)); cbn; [auto|].
  destruct (Hh _ HI) as [HI' HP']. split; [exact HI'|].
  apply Forall_app. auto.
Qed.

Lemma Keeps_forEach {A} I P (f : A -> @M PC unit) l :
  (forall x, Keeps I P (f x)) -> Keeps I P (forEach f l).
Proof.
  intros Hf. induction l as [|x l IH]; cbn [forEach].
  - apply Keeps_ret.
  - apply Keeps_bind; [apply Hf | intros _; exact IH].
Qed.

Lemma Keeps_invoke {A} I P p c (f : PC -> PC * option A) :
  (forall g w, I w -> I (setPcs g w)) -> (forall ok, P (PcInvoke p c ok)) ->
  Keeps I P (invoke p c f).
Proof.
  intros Hg HP w H. unfold invoke.
  destruct (pcs (browser w) !! p); cbn; auto.
Qed.

Lemma Keeps_invokeTotal I P p c (f : PC -> PC) :
  (forall g w, I w -> I (setPcs g w)) -> P (PcInvoke p c true) ->
  Keeps I P (invokeTotal p c f).
Proof.
  intros Hg HP w H. unfold invokeTotal.
  destruct (pcs (browser w) !! p); cbn; auto.
Qed.

Lemma Keeps_channelSend I P topic pl :
  (forall v w, I w -> I (setSendOutcomes v w)) ->
  (forall ok, P (ChannelSend topic pl ok)) ->
  Keeps I P (@channelSend PC topic pl).
Proof.
  intros Hv HP w H. unfold channelSend.
  destruct (sendOutcomes (browser w)); cbn; auto.
Qed.

(** A judgement for every world gives one from the worlds where [I]
    holds. *)
Lemma Keeps_of {A} I P (m : @M PC A) :
  Maintains I m -> Emits P m -> Keeps I P m.
Proof. intros HI HP w H. split; [apply HI, H | apply HP]. Qed.

End KeepsLogic.

Ltac keeps_step :=
  lazymatch goal with
  | |- Keeps _ _ (match ?x with _ => _ end) => destruct x
  | |- Keeps _ _ (ret _) => apply Keeps_ret
  | |- Keeps _ _ throw => apply Keeps_throw
  | |- Keeps _ _ (gets _) => apply Keeps_gets
  | |- Keeps _ _ (emit _) => apply Keeps_emit
  | |- Keeps _ _ (bind _ _) => apply Keeps_bind; [| intros ?]
  | |- Keeps _ _ (tryCatch _ _) => apply Keeps_tryCatch
  | |- Keeps _ _ (forEach _ _) => apply Keeps_forEach; intros ?
  | |- Keeps _ _ (invoke _ _ _) => apply Keeps_invoke; [intros ? ? ? | intros ?]
  | |- Keeps _ _ (invokeTotal _ _ _) => apply Keeps_invokeTotal; [intros ? ? ?|]
  | |- Keeps _ _ (channelSend _ _) => apply Keeps_channelSend; [intros ? ? ? | intros ?]
  | |- Keeps _ _ (modify _) => apply Keeps_modify; intros ? ?
  end.

Ltac keeps := repeat keeps_step.

(** Everything but the three functions that read the channel. *)
Ltac unfold_around_channel :=
  repeat progress unfold initializeCall, initializeCallGranted,
    initializeCallCatch, initializeCallSettled, onSignaling, onTrack,
    onIceCandidate, onIceConnectionStateChange, toggleMute, handleEndCall,
    cleanup, stopTracks, clearCallTimer, callStatusEffect.

Section ChannelFacts.

Context {PC : Type} (ops : PcOps PC).

Lemma sendSignalingMessage_onTopic pr msg :
  Keeps (onTopic pr) (wellAddressed pr) (@sendSignalingMessage PC msg).
Proof.
  intros w (Hp & Hc & Hl). explode w. cbn in Hp, Hc, Hl. subst pr.
  destruct chr as [c|], so as [|[] so];
    match goal with
    | |- context [sendSignalingMessage ?a ?b] => evaluate (@sendSignalingMessage PC a b)
    end; (split; [split; [reflexivity | split; assumption] |]);
    repeat constructor; cbn.
  all: destruct Hc as [Hc|Hc]; [discriminate | injection Hc as ->]; reflexivity.
Qed.

Lemma subscribeToSignaling_onTopic pr :
  Keeps (onTopic pr) (wellAddressed pr) (@subscribeToSignaling PC).
Proof.
  intros w (Hp & Hc & Hl). explode w. cbn in Hp, Hc, Hl. subst pr.
  match goal with
  | |- context [subscribeToSignaling ?a] => evaluate (@subscribeToSignaling PC a)
  end.
  split; [split; [reflexivity | split; [assumption | right; reflexivity]] |].
  repeat constructor.
Qed.

Lemma onSubscribeStatus_onTopic pr status :
  Keeps (onTopic pr) (wellAddressed pr) (@onSubscribeStatus PC status).
Proof.
  unfold onSubscribeStatus.
  apply Keeps_bind; [apply Keeps_emit; exact I | intros _].
  destruct (String.eqb status "SUBSCRIBED"); [|apply Keeps_ret].
  intros w H.
  assert (H' : onTopic pr (setChannelRef (channelLocal (call w)) w)).
  { destruct H as (Ha & Hb & Hc). exact (conj Ha (conj Hc Hc)). }
  assert (Hk : Keeps (onTopic pr) (wellAddressed pr)
                 (bind (gets (fun w0 : @World PC => stage (call w0)))
                    (fun st => match st with
                               | AwaitSubscribed => initializeCallSubscribed
                               | _ => ret tt
                               end))).
  { unfold initializeCallSubscribed. keeps; try exact I;
      match goal with H : onTopic _ _ |- onTopic _ _ => exact H end. }
  exact (Hk _ H').
Qed.

Lemma dispatch_onTopic pr ev st snap p ch now :
  Keeps (onTopic pr) (wellAddressed pr) (dispatch ops ev st snap p ch now).
Proof.
  by_event ev st p ch; unfold_around_channel; keeps;
    try apply sendSignalingMessage_onTopic;
    try apply subscribeToSignaling_onTopic;
    try apply onSubscribeStatus_onTopic;
    try exact I;
    try match goal with
        | H : onTopic _ _ |- onTopic _ _ =>
            first [ exact H
                  | destruct H as (Ha & Hb & Hc);
                    exact (conj Ha (conj (or_introl eq_refl) Hc)) ]
        end.
Qed.

Lemma step_onTopic pr ev : Keeps (onTopic pr) (wellAddressed pr) (step ops ev).
Proof.
  intros w H. unfold step.
  apply Keeps_bind; [| intros _ | exact H].
  - intros w' H'. unfold handle. apply dispatch_onTopic, H'.
  - unfold_around_channel. keeps; try exact I;
      match goal with H : onTopic _ _ |- onTopic _ _ => exact H end.
Qed.

Lemma run_onTopic pr evs : Keeps (onTopic pr) (wellAddressed pr) (run ops evs).
Proof.
  induction evs as [|ev evs IH]; intros w H; cbn.
  - split; [exact H | constructor].
  - destruct (step_onTopic pr ev w H) as [H1 E1].
    destruct (IH _ H1) as [H2 E2].
    split; [exact H2 | apply Forall_app; auto].
Qed.

(** X1. During one opening of the dialog, starting with no channel attached,
    every signaling message the component sends, after any sequence of
    events, goes out on the topic [audio-call-<chatId>] and carries
    [from] = the local user, [to] = the other user and no further field. *)
Theorem every_send_is_addressed_to_the_peer evs (w : @World PC) :
  channelRef (refs w) = None ->
  channelLocal (call w) = None ->
  Forall (wellAddressed (props w)) (effects (run ops evs w)).
Proof.
  intros Hc Hl. apply (run_onTopic (props w) evs w).
  split; [reflexivity | split; left; assumption].
Qed.

End ChannelFacts.


Section SubscriptionFacts.

Context {PC : Type} (ops : PcOps PC).

Lemma sendSignalingMessage_detached msg :
  Keeps (fun w : @World PC => channelRef (refs w) = None)
        (fun e => isSend e = false) (@sendSignalingMessage PC msg).
Proof.
  intros w Hc. explode w. cbn in Hc. subst chr.
  match goal with
  | |- context [sendSignalingMessage ?a ?b] => evaluate (@sendSignalingMessage PC a b)
  end.
  split; [reflexivity | repeat constructor].
Qed.

Lemma dispatch_detached ev st snap p ch now :
  (forall status, ev <> SubscribeStatus status) ->
  Keeps (fun w : @World PC => channelRef (refs w) = None)
        (fun e => isSend e = false) (dispatch ops ev st snap p ch now).
Proof.
  intros Hev. by_event ev st p ch; try (exfalso; eapply Hev; reflexivity);
    unfold_around_channel; unfold subscribeToSignaling; keeps;
    try apply sendSignalingMessage_detached; try reflexivity;
    try match goal with H : channelRef _ = None |- _ => exact H end.
Qed.

Lemma onSubscribeStatus_sends_nothing status :
  Emits (fun e => isSend e = false) (@onSubscribeStatus PC status).
Proof. unfold onSubscribeStatus, initializeCallSubscribed. emits. Qed.

Lemma callStatusEffect_detached before :
  Keeps (fun w : @World PC => channelRef (refs w) = None)
        (fun e => isSend e = false) (@callStatusEffect PC before).
Proof.
  unfold callStatusEffect, clearCallTimer. keeps; try reflexivity;
    match goal with H : channelRef _ = None |- _ => exact H end.
Qed.

Lemma callStatusEffect_sends_nothing before :
  Emits (fun e => isSend e = false) (@callStatusEffect PC before).
Proof. unfold callStatusEffect, clearCallTimer. emits. Qed.

(** While no channel is attached, an event sends nothing. *)
Lemma step_detached_sends_nothing ev (w : @World PC) :
  channelRef (refs w) = None ->
  Forall (fun e => isSend e = false) (effects (step ops ev w)).
Proof.
  intros Hc. rewrite step_effects. apply Forall_app. split.
  - unfold handle.
    destruct ev as [| | |status| | | | | | | | |];
      try (refine (proj2 (dispatch_detached _ _ _ _ _ _ _ w Hc)); discriminate).
    unfold dispatch. destruct (channelLocal (call w)).
    + apply onSubscribeStatus_sends_nothing.
    + constructor.
  - apply callStatusEffect_sends_nothing.
Qed.

Lemma bind_emit_effects {A} e (k : unit -> @M PC A) w :
  effects (bind (emit e) k w) = e :: effects (k tt w).
Proof. reflexivity. Qed.

(** A channel gets attached by the SUBSCRIBED report only. *)
Lemma step_attaches_on_report ev (w : @World PC) :
  channelRef (refs w) = None ->
  channelRef (refs (world (step ops ev w))) <> None ->
  In subscribedLog (effects (step ops ev w)).
Proof.
  intros Hc Hafter. rewrite step_effects. apply in_or_app. left.
  rewrite step_world in Hafter.
  assert (Hh : channelRef (refs (world (handle ops ev w))) <> None).
  { intros Hn. apply Hafter.
    exact (proj1 (callStatusEffect_detached _ _ Hn)). }
  clear Hafter. unfold handle in *.
  destruct ev as [| | |status| | | | | | | | |];
    try (exfalso; apply Hh;
         refine (proj1 (dispatch_detached _ _ _ _ _ _ _ w Hc)); discriminate).
  unfold dispatch in *. destruct (channelLocal (call w)); [|contradiction].
  unfold onSubscribeStatus in *.
  destruct (String.eqb status "SUBSCRIBED") eqn:Es.
  - apply String.eqb_eq in Es. subst status.
    rewrite bind_emit_effects. left. reflexivity.
  - exfalso. apply Hh. exact Hc.
Qed.

Lemma run_sends_after_report evs : forall (w : @World PC) E,
  (forall pre e post,
     E = pre ++ e :: post -> isSend e = true -> In subscribedLog pre) ->
  (channelRef (refs w) <> None -> In subscribedLog E) ->
  forall pre e post,
    E ++ effects (run ops evs w) = pre ++ e :: post ->
    isSend e = true -> In subscribedLog pre.
Proof.
  induction evs as [|ev evs IH]; intros w E Hord Hatt pre e post Heq He.
  - cbn in Heq. rewrite app_nil_r in Heq. eapply Hord; eassumption.
  - cbn in Heq. rewrite app_assoc in Heq.
    refine (IH (world (step ops ev w)) (E ++ effects (step ops ev w)) _ _ _ _ _ Heq He).
    + intros pre1 e1 post1 Heq1 He1.
      destruct (split_app _ _ _ _ _ Heq1) as [[post' HE] | (pre' & -> & Hext)].
      * eapply Hord; eassumption.
      * apply in_or_app. left.
        destruct (channelRef (refs w)) eqn:Ec; [apply Hatt; discriminate|].
        exfalso.
        pose proof (step_detached_sends_nothing ev w Ec) as Hfree.
        rewrite Hext in Hfree. apply Forall_app in Hfree as [_ Hfree].
        inversion Hfree; subst. congruence.
    + intros Hafter. apply in_or_app.
      destruct (channelRef (refs w)) eqn:Ec.
      * left. apply Hatt. discriminate.
      * right. apply step_attaches_on_report; assumption.
Qed.

(** X2. Starting with no channel attached, no signaling message of any
    kind (offer, answer, candidate or end-call) is sent before the channel
    has reported SUBSCRIBED: in the trace of any sequence of events every
    send is preceded by the log of that status. Before it
    [channelRef.current] is null and [sendSignalingMessage] returns without
    sending. *)
Theorem nothing_is_sent_before_the_subscription_is_confirmed evs (w : @World PC) :
  channelRef (refs w) = None ->
  forall pre e post,
    effects (run ops evs w) = pre ++ e :: post ->
    isSend e = true ->
    In subscribedLog pre.
Proof.
  intros Hc pre e post Heq He.
  apply (run_sends_after_report evs w []) with (e := e) (post := post).
  - intros [|x pre1] e1 post1 H; discriminate.
  - congruence.
  - exact Heq.
  - exact He.
Qed.

End SubscriptionFacts.


Section RefusalFacts.

Context {PC : Type} (ops : PcOps PC).

Lemma sendSignalingMessage_refused msg :
  Keeps refused (fun e => startsNothing e = true) (@sendSignalingMessage PC msg).
Proof.
  intros w (Hs & Hp & Hl & Hc). explode w. cbn in Hs, Hp, Hl, Hc. subst.
  match goal with
  | |- context [sendSignalingMessage ?a ?b] => evaluate (@sendSignalingMessage PC a b)
  end.
  split; [repeat split | repeat constructor].
Qed.

Ltac keep_refused :=
  try apply sendSignalingMessage_refused; try reflexivity;
  try match goal with
      | H : refused _ |- refused _ =>
          first [ exact H
                | destruct H as (Ha & Hb & Hc & Hd);
                  exact (conj Ha (conj Hb (conj Hc eq_refl))) ]
      end.

Lemma dispatch_refused ev snap now :
  Keeps refused (fun e => startsNothing e = true)
        (dispatch ops ev Done snap None None now).
Proof.
  destruct ev; unfold dispatch; cbv beta iota;
    unfold_around_channel; keeps; keep_refused.
Qed.

Lemma step_refused ev :
  Keeps refused (fun e => startsNothing e = true) (step ops ev).
Proof.
  intros w H. unfold step.
  apply Keeps_bind; [| intros _ | exact H].
  - intros w' H'. unfold handle.
    destruct H' as (Hs & Hp & Hl & Hc). rewrite Hs, Hp, Hl.
    apply dispatch_refused. exact (conj Hs (conj Hp (conj Hl Hc))).
  - unfold_around_channel. keeps; keep_refused.
Qed.

Lemma run_refused evs :
  Keeps refused (fun e => startsNothing e = true) (run ops evs).
Proof.
  induction evs as [|ev evs IH]; intros w H; cbn.
  - split; [exact H | constructor].
  - destruct (step_refused ev w H) as [H1 E1].
    destruct (IH _ H1) as [H2 E2].
    split; [exact H2 | apply Forall_app; auto].
Qed.

(** X3. When [getUserMedia] is refused, [initializeCall] logs the error,
    shows the microphone toast and calls [onClose], and for the rest of
    that opening of the dialog, that is for whatever events follow other
    than the dialog being opened again, the component asks for no media
    again, creates no connection, subscribes to no channel and sends
    nothing. (Opening the dialog again runs [initializeCall], and with it
    [getUserMedia], anew.) *)
Theorem refused_microphone_starts_nothing evs (w : @World PC) :
  ~ In Opened evs ->
  stage (call w) = NotStarted ->
  pcLocal (call w) = None ->
  channelLocal (call w) = None ->
  channelRef (refs w) = None ->
  exists rest,
    effects (run ops (Opened :: MediaDenied :: evs) w) =
      [ConsoleLog "AudioCall opened, isInitiator:";
       ConsoleLog "Initializing audio call, requesting microphone access...";
       GetUserMedia;
       ConsoleError "Error initializing call:";
       ShowToast ToastMicrophoneDenied;
       OnClose] ++ rest /\
    Forall (fun e => startsNothing e = true) rest.
Proof.
  intros _ Hs Hp Hl Hc. explode w. cbn in Hs, Hp, Hl, Hc. subst.
  cbn [run].
  destruct cs;
    match goal with
    | |- context [step ops Opened ?a] => evaluate (step ops Opened a)
    end;
    match goal with
    | |- context [step ops MediaDenied ?a] => evaluate (step ops MediaDenied a)
    end.
  all: eexists; split; [cbn; reflexivity|].
  all: apply run_refused; repeat split.
Qed.

Lemma callStatusEffect_frame (Q : ReactState -> option string -> Prop) before :
  Maintains (fun w : @World PC => Q (state w) (channelRef (refs w)))
            (@callStatusEffect PC before).
Proof. unfold_component. maintains. Qed.

Lemma dispatch_closed_emits st snap p ch now :
  Emits (fun e => isOnCloseOrSend e = false) (dispatch ops Closed st snap p ch now).
Proof. unfold dispatch. destruct st; unfold_component; emits. Qed.

Lemma callStatusEffect_quiet before :
  Emits (fun e => isOnCloseOrSend e = false) (@callStatusEffect PC before).
Proof. unfold_component. emits. Qed.

(** X12. When the dialog closes ([isOpen] turns false) the cleanup of the
    effect sends no message to the peer and does not call [onClose]; if
    [initializeCall] had been started it leaves [callStatus] ended, no
    channel attached and no stream or connection in the state. *)
Theorem closing_notifies_nobody (w : @World PC) :
  let o := step ops Closed w in
  Forall (fun e => isOnCloseOrSend e = false) (effects o) /\
  (stage (call w) <> NotStarted ->
   callStatus (state (world o)) = Ended /\
   channelRef (refs (world o)) = None /\
   localStream (state (world o)) = None /\
   peerConnection (state (world o)) = None).
Proof.
  intros o. subst o. split.
  - rewrite step_effects. apply Forall_app. split.
    + unfold handle. apply dispatch_closed_emits.
    + apply callStatusEffect_quiet.
  - intros Hst.
    assert (Hc : forall snap (w' : @World PC),
               let w1 := world (cleanup ops snap w') in
               callStatus (state w1) = Ended /\ channelRef (refs w1) = None /\
               localStream (state w1) = None /\ peerConnection (state w1) = None).
    { intros snap w'. cbv zeta.
      explode w'. destruct snap as [[s|] [q|] smu scs scd], chr as [c|], tr as [ti|];
        try destruct (ps !! q) eqn:Eq;
        match goal with
        | |- context [cleanup ?a ?b ?c] => evaluate (cleanup a b c)
        end; repeat split. }
    rewrite step_world.
    assert (Hh : callStatus (state (world (handle ops Closed w))) = Ended /\
                 channelRef (refs (world (handle ops Closed w))) = None /\
                 localStream (state (world (handle ops Closed w))) = None /\
                 peerConnection (state (world (handle ops Closed w))) = None).
    { unfold handle, dispatch. destruct (stage (call w)); try contradiction; apply Hc. }
    apply (callStatusEffect_frame
             (fun st ch => callStatus st = Ended /\ ch = None /\
                           localStream st = None /\ peerConnection st = None)).
    exact Hh.
Qed.

End RefusalFacts.


Section NegotiationFacts.

Context {PC : Type} (ops : PcOps PC).

(** X4. Handling an Offer addressed to the local user never throws and
    changes neither the React state nor the refs. It sends at most one
    message: the Answer the connection created, and only when
    [setRemoteDescription], [createAnswer] and [setLocalDescription] all
    succeeded in that order and the channel is attached. When one of the
    three fails nothing is sent and the last thing the handler does is log
    the error. *)
Theorem answer_is_sent_only_after_negotiation p snap pl d (w : @World PC) x :
  to pl = currentUserId (props w) ->
  message pl = Offer d ->
  pcs (browser w) !! p = Some x ->
  let o := onSignaling ops p snap pl w in
  value o = Some tt /\
  state (world o) = state w /\ refs (world o) = refs w /\
  List.filter isSend (effects o) =
    match negotiatedAnswer ops x d, channelRef (refs w) with
    | Some a, Some c =>
        [ChannelSend c
           (mkPayload (currentUserId (props w)) (otherUserId (props w)) (Answer a) [])
           (List.hd true (sendOutcomes (browser w)))]
    | _, _ => []
    end /\
  (negotiatedAnswer ops x d = None ->
   List.last (effects o) OnClose = ConsoleError "Error processing signaling message:").
Proof.
  intros Hto Hm Hx o. subst o.
  explode w. destruct pl as [f t m more]. cbn in Hto, Hm, Hx. subst.
  unfold negotiatedAnswer.
  destruct (pcSetRemoteDescription ops x d) as [x1 [[]|]] eqn:E1; cbn [fst snd].
  - destruct (pcCreateAnswer ops x1) as [x2 [a|]] eqn:E2; cbn [fst snd].
    + destruct (pcSetLocalDescription ops x2 a) as [x3 [[]|]] eqn:E3; cbn [fst snd];
        destruct chr as [c|], so as [|[] so];
        match goal with
        | |- context [onSignaling ?a ?b ?c ?d ?e] => evaluate (onSignaling a b c d e)
        end; repeat split; try discriminate; try reflexivity.
    + destruct chr as [c|], so as [|[] so];
        match goal with
        | |- context [onSignaling ?a ?b ?c ?d ?e] => evaluate (onSignaling a b c d e)
        end; repeat split; try discriminate; try reflexivity.
  - destruct chr as [c|], so as [|[] so];
      match goal with
      | |- context [onSignaling ?a ?b ?c ?d ?e] => evaluate (onSignaling a b c d e)
      end; repeat split; try discriminate; try reflexivity.
Qed.

Lemma stopTrack_all tracks :
  Forall (fun t => stopped t = true) (map stopTrack tracks).
Proof. induction tracks; constructor; [reflexivity | assumption]. Qed.

(** X5. [cleanup] never throws, sends nothing and does not call
    [onClose]. It always ends with no stream and no connection in the
    state, [callStatus] ended, [callDuration] 0 and no channel attached,
    and leaves the muted flag and the timer ref as they were. The stream it
    stops and the connection it closes are those of the state its closure
    captured: every track of that stream ends up stopped and that
    connection closed; every other stream and connection is untouched. *)
Theorem cleanup_releases_what_its_closure_holds snap (w : @World PC) :
  let o := cleanup ops snap w in
  value o = Some tt /\
  Forall (fun e => isOnCloseOrSend e = false) (effects o) /\
  localStream (state (world o)) = None /\
  peerConnection (state (world o)) = None /\
  callStatus (state (world o)) = Ended /\
  callDuration (state (world o)) = 0 /\
  channelRef (refs (world o)) = None /\
  isMuted (state (world o)) = isMuted (state w) /\
  callTimerRef (refs (world o)) = callTimerRef (refs w) /\
  (forall s tracks,
     localStream snap = Some s -> streams (browser w) !! s = Some tracks ->
     streams (browser (world o)) !! s = Some (map stopTrack tracks) /\
     Forall (fun t => stopped t = true) (map stopTrack tracks)) /\
  (forall i, localStream snap <> Some i ->
     streams (browser (world o)) !! i = streams (browser w) !! i) /\
  (forall p x,
     peerConnection snap = Some p -> pcs (browser w) !! p = Some x ->
     pcs (browser (world o)) !! p = Some (pcClose ops x)) /\
  (forall i, peerConnection snap <> Some i ->
     pcs (browser (world o)) !! i = pcs (browser w) !! i).
Proof.
  intros o. subst o. split; [|split].
  - apply Catches_value. unfold_component. catches.
  - assert (H : Emits (fun e => isOnCloseOrSend e = false) (cleanup ops snap))
      by (unfold_component; emits).
    apply H.
  - explode w.
    destruct snap as [[s|] [q|] smu scs scd], chr as [c|], tr as [ti|];
      try destruct (ps !! q) as [x|] eqn:Eq;
      match goal with
      | |- context [cleanup ?a ?b ?c] => evaluate (cleanup a b c)
      end.
    all: repeat split; try reflexivity.
    all: intros;
      repeat match goal with
             | H : Some _ = Some _ |- _ => injection H as H; subst
             end;
      try congruence.
    all: try match goal with
             | |- Forall _ (map stopTrack _) => apply stopTrack_all
             | H : ?l !! ?s = Some _ |- alter _ ?s ?l !! ?s = _ =>
                 rewrite list_lookup_alter_eq, H; reflexivity
             | |- alter _ _ _ !! _ = _ => apply list_lookup_alter_ne; congruence
             | H : ?l !! ?q = Some _ |- <[?q := _]> ?l !! ?q = _ =>
                 rewrite list_lookup_insert_eq by (eapply lookup_lt_Some; exact H);
                 congruence
             | |- <[_ := _]> _ !! _ = _ => apply list_lookup_insert_ne; congruence
             end.
Qed.

End NegotiationFacts.


Section TimerFacts.

Context {PC : Type} (ops : PcOps PC).

Lemma liveTimers_app L E1 E2 :
  liveTimers L (E1 ++ E2) = liveTimers (liveTimers L E1) E2.
Proof.
  revert L. induction E1 as [|e E1 IH]; intros L; [reflexivity|].
  destruct e; cbn; apply IH.
Qed.

Lemma filter_length_le (f : nat -> bool) L : length (List.filter f L) <= length L.
Proof. induction L as [|x L IH]; cbn; [lia|]. destruct (f x); cbn; lia. Qed.

(** Without a [setInterval], the running intervals can only get fewer. *)
Lemma liveTimers_shrinks E : forall L,
  Forall (fun e => isSetInterval e = false) E ->
  (forall t, In t (liveTimers L E) -> In t L) /\
  length (liveTimers L E) <= length L.
Proof.
  induction E as [|e E IH]; intros L HE; [cbn; auto|].
  inversion HE as [|e' E' He HE']; subst.
  destruct e; try discriminate; cbn; try (apply IH; assumption).
  destruct (IH (List.filter (fun u => negb (Nat.eqb u timer)) L) HE') as [Hin Hlen].
  split.
  - intros t Ht. apply Hin in Ht. apply filter_In in Ht. tauto.
  - pose proof (filter_length_le (fun u => negb (Nat.eqb u timer)) L). lia.
Qed.

Lemma filter_all_equal r L :
  (forall t, In t L -> r = t) ->
  List.filter (fun u => negb (Nat.eqb u r)) L = [].
Proof.
  induction L as [|x L IH]; intros H; [reflexivity|]. cbn.
  rewrite <- (H x) by (left; reflexivity). rewrite Nat.eqb_refl. cbn.
  apply IH. intros t Ht. apply H. right. exact Ht.
Qed.

Lemma dispatch_sets_no_interval ev st snap p ch now :
  Emits (fun e => isSetInterval e = false) (dispatch ops ev st snap p ch now).
Proof. by_event ev st p ch; unfold_component; emits. Qed.

Lemma dispatch_timer_ref r ev st snap p ch now :
  Maintains (fun w : @World PC => callTimerRef (refs w) = r)
            (dispatch ops ev st snap p ch now).
Proof. by_event ev st p ch; unfold_component; maintains. Qed.

(** The effect on [callStatus]: it clears the interval of the ref before
    it sets a new one. *)
Lemma callStatusEffect_timers before (w : @World PC) L :
  (forall t, In t L -> callTimerRef (refs w) = Some t) ->
  length L <= 1 ->
  (callStatus (state w) = before -> callStatus (state w) <> Connected -> L = []) ->
  oneTimer (world (callStatusEffect before w))
           (liveTimers L (effects (callStatusEffect before w))).
Proof.
  intros HA HC HB. explode w. cbn in HA, HB.
  assert (Hnil : tr = None -> L = []).
  { intros ->. destruct L as [|t L]; [reflexivity|].
    specialize (HA t (or_introl eq_refl)). discriminate. }
  assert (Hclear : forall r, tr = Some r ->
            List.filter (fun u => negb (Nat.eqb u r)) L = []).
  { intros r ->. apply filter_all_equal. intros t Ht.
    specialize (HA t Ht). congruence. }
  destruct before, cs, tr as [r|];
    match goal with
    | |- context [callStatusEffect ?a ?b] => evaluate (@callStatusEffect PC a b)
    end;
    cbn [liveTimers app];
    rewrite ?(Hclear _ eq_refl); rewrite ?(Hnil eq_refl); cbn [List.filter liveTimers];
    try (rewrite (HB eq_refl) by discriminate);
    unfold oneTimer; cbn.
  all: repeat split; auto; try lia; try (intros t [<-|[]]; reflexivity);
    try (intros t []); try congruence; try (intros; exfalso; congruence).
Qed.

Lemma step_timers ev (w : @World PC) L :
  oneTimer w L ->
  oneTimer (world (step ops ev w)) (liveTimers L (effects (step ops ev w))).
Proof.
  intros (HA & HC & HB).
  rewrite step_world, step_effects, liveTimers_app.
  destruct (liveTimers_shrinks (effects (handle ops ev w)) L) as [Hin Hlen].
  { unfold handle. apply dispatch_sets_no_interval. }
  apply callStatusEffect_timers.
  - intros t Ht. apply Hin in Ht.
    unfold handle.
    apply (dispatch_timer_ref (Some t)). apply HA, Ht.
  - lia.
  - intros Hsame Hnot. rewrite Hsame in Hnot. specialize (HB Hnot).
    destruct (liveTimers L (effects (handle ops ev w))) as [|t L'];
      [reflexivity|].
    exfalso. specialize (Hin t (or_introl eq_refl)).
    rewrite HB in Hin. exact Hin.
Qed.

Lemma run_timers evs : forall (w : @World PC) L,
  oneTimer w L ->
  oneTimer (world (run ops evs w)) (liveTimers L (effects (run ops evs w))).
Proof.
  induction evs as [|ev evs IH]; intros w L H; cbn; [exact H|].
  rewrite liveTimers_app. apply IH, step_timers, H.
Qed.

(** X6. After any sequence of events, of the intervals set during the
    run at most one has not been cleared, it is the one held in
    [callTimerRef], and there is none unless [callStatus] is connected. *)
Theorem at_most_one_interval_runs evs (w : @World PC) :
  let o := run ops evs w in
  let live := liveTimers [] (effects o) in
  (forall t, In t live -> callTimerRef (refs (world o)) = Some t) /\
  length live <= 1 /\
  (callStatus (state (world o)) <> Connected -> live = []).
Proof.
  apply run_timers. repeat split; cbn; [tauto | lia].
Qed.

End TimerFacts.


Section AcquisitionFacts.

Context {PC : Type} (ops : PcOps PC).

(** The loop of lines 397-400 on a connection [x] held at [p]. *)
Lemma run_forEach_addTrack p tracks : forall (w : @World PC) x,
  pcs (browser w) !! p = Some x ->
  forEach (fun t => bind (emit (ConsoleLog "Adding audio track"))
                      (fun _ => invokeTotal p (AddTrack t)
                                  (fun x => pcAddTrack ops x t))) tracks w =
  mkOut (setPcs (fun l => <[p := fold_left (pcAddTrack ops) tracks x]> l) w)
        (flat_map (fun t => [ConsoleLog "Adding audio track";
                             PcInvoke p (AddTrack t) true]) tracks)
        (Some tt).
Proof.
  induction tracks as [|t tracks IH]; intros w x Hx.
  - destruct w as [pr st rf [ss ps so nt] cl]. cbn in Hx. cbn.
    unfold ret, setPcs, withBrowser. cbn. rewrite list_insert_id by exact Hx.
    reflexivity.
  - cbn [forEach fold_left flat_map].
    eapply eq_trans.
    { eapply run_bind.
      - eapply run_bind; [reflexivity|].
        cbv beta iota. apply run_invokeTotal_some. exact Hx.
      - cbv beta iota. apply IH. cbn.
        apply list_lookup_insert_eq. eapply lookup_lt_Some. exact Hx. }
    destruct w as [pr st rf [ss ps so nt] cl]. cbn.
    unfold setPcs, withBrowser. cbn. rewrite list_insert_insert_eq. reflexivity.
Qed.

End AcquisitionFacts.

(** [exec] with the loop over the granted tracks. *)
Ltac exec_granted :=
  world_simpl; rewrite ?String.eqb_refl; use_results; world_simpl; cbv beta iota;
  lazymatch goal with
  | |- bind _ _ _ = _ => eapply run_bind; [exec_granted | exec_granted]
  | |- tryCatch _ _ _ = _ => eapply run_tryCatch; [exec_granted | exec_granted]
  | |- forEach (fun t => bind (emit _) (fun _ => invokeTotal _ (AddTrack t) _)) _ _ = _ =>
      eapply run_forEach_addTrack; world_simpl;
      apply list_lookup_middle; reflexivity
  | |- mkOut _ _ _ = _ => reflexivity
  | |- ret _ _ = _ => reflexivity
  | |- gets _ _ = _ => reflexivity
  | |- modify _ _ = _ => reflexivity
  | |- emit _ _ = _ => reflexivity
  | |- (match ?x with _ => _ end) _ = _ => fail 0 "not known:" x
  | |- ?m _ = _ => let h := head_of m in unfold h; exec_granted
  end.

Section AcquisitionFacts2.

Context {PC : Type} (ops : PcOps PC).

Lemma filter_addTrack p tracks :
  List.filter (fun e => negb (startsNothing e))
    (flat_map (fun t => [ConsoleLog "Adding audio track";
                         PcInvoke p (AddTrack t) true]) tracks) = [].
Proof. induction tracks as [|t tracks IH]; [reflexivity | exact IH]. Qed.

(** X13. When [getUserMedia] resolves, [initializeCall] does not throw; it
    stores the granted stream, creates one connection to which every track
    of the stream is added in order, puts both in the state, installs the
    handlers and subscribes to the topic [audio-call-<chatId>], which is the
    last thing it does before waiting for the subscription. It creates
    nothing else and sends nothing; [channelRef] and [callStatus] are
    unchanged. *)
Theorem granted_stream_goes_to_a_new_connection tracks (w : @World PC) :
  stage (call w) = AwaitMedia ->
  let o := step ops (MediaGranted tracks) w in
  let s := length (streams (browser w)) in
  let p := length (pcs (browser w)) in
  let topic := "audio-call-" +:+ chatId (props w) in
  value o = Some tt /\
  streams (browser (world o)) = streams (browser w) ++ [tracks] /\
  pcs (browser (world o)) =
    pcs (browser w) ++ [fold_left (pcAddTrack ops) tracks (pcNew ops)] /\
  localStream (state (world o)) = Some s /\
  peerConnection (state (world o)) = Some p /\
  pcLocal (call (world o)) = Some p /\
  channelLocal (call (world o)) = Some topic /\
  stage (call (world o)) = AwaitSubscribed /\
  channelRef (refs (world o)) = channelRef (refs w) /\
  callStatus (state (world o)) = callStatus (state w) /\
  List.filter (fun e => negb (startsNothing e)) (effects o) =
    [NewPeerConnection p; Subscribe topic] /\
  List.last (effects o) OnClose = Subscribe topic.
Proof.
  intros Hs o s p topic. subst o s p topic.
  explode w. cbn in Hs. subst sg.
  destruct cs;
    match goal with
    | |- context [step ops ?e ?a] =>
        let H := fresh "Hrun" in
        eassert (H : step ops e a = _) by exec_granted;
        rewrite !H; clear H; world_simpl
    end.
  all: rewrite insert_app_r_alt by lia; rewrite Nat.sub_diag; cbn [list_insert insert].
  all: cbn [app]; rewrite ?app_nil_r.
  all: repeat split; try reflexivity.
  all: try (cbn [List.filter startsNothing negb]; rewrite List.filter_app;
            rewrite filter_addTrack; reflexivity).
  all: rewrite 3 app_comm_cons; apply List.last_last.
Qed.

End AcquisitionFacts2.

(** * Local candidates *)

Section CandidateFacts.

Context {PC : Type} (ops : PcOps PC).

Lemma omap_sentCandidate_nil (E : list Effect) :
  Forall (fun e => sentCandidate e = None) E -> omap sentCandidate E = [].
Proof.
  induction 1 as [|e E He _ IH]; [reflexivity|].
  cbn. rewrite He. exact IH.
Qed.

Lemma dispatch_sends_no_candidate ev st snap p ch now :
  gathered ev = None ->
  Emits (fun e => sentCandidate e = None) (dispatch ops ev st snap p ch now).
Proof.
  intros Hev. by_event ev st p ch; cbn in Hev; try discriminate; subst;
    unfold_component; emits.
Qed.

Lemma callStatusEffect_sends_no_candidate before :
  Emits (fun e => sentCandidate e = None) (@callStatusEffect PC before).
Proof. unfold_component. emits. Qed.

Lemma onIceCandidate_sends c (w : @World PC) :
  omap sentCandidate (effects (onIceCandidate (Some c) w)) =
    match channelRef (refs w) with
    | Some _ => [c]
    | None => []
    end.
Proof.
  explode w. unfold onIceCandidate, sendSignalingMessage, bind, tryCatch, gets,
    emit, channelSend.
  destruct chr as [topic|]; [|reflexivity].
  destruct so as [|[] so]; reflexivity.
Qed.

Lemma step_candidates ev (w : @World PC) :
  omap sentCandidate (effects (step ops ev w)) =
    match gathered ev, pcLocal (call w), channelRef (refs w) with
    | Some c, Some _, Some _ => [c]
    | _, _, _ => []
    end.
Proof.
  rewrite step_effects, omap_app.
  rewrite (omap_sentCandidate_nil (effects (callStatusEffect _ _)))
    by apply callStatusEffect_sends_no_candidate.
  rewrite app_nil_r.
  destruct (gathered ev) as [c|] eqn:Hev.
  - destruct ev; try discriminate. cbn in Hev. subst.
    unfold handle, dispatch.
    destruct (stage (call w)), (pcLocal (call w));
      first [apply onIceCandidate_sends | destruct (channelRef (refs w)); reflexivity
            | reflexivity].
  - apply omap_sentCandidate_nil. unfold handle.
    apply dispatch_sends_no_candidate, Hev.
Qed.

(** X14. The Candidate messages sent, after any sequence of events, carry
    candidates the connection found, in the order it found them and each
    at most once for each time it was found: the component sends no
    candidate twice, none out of order and none of its own making, and the
    null candidate that ends gathering is not sent. A candidate found
    while the handlers are installed and the channel is attached is sent;
    one found while the channel is not attached is dropped. *)
Theorem candidates_are_sent_in_the_order_found evs (w : @World PC) :
  sublist (omap sentCandidate (effects (run ops evs w))) (omap gathered evs) /\
  (forall c w',
     pcLocal (call w') <> None ->
     omap sentCandidate (effects (step ops (LocalCandidate (Some c)) w')) =
       match channelRef (refs w') with Some _ => [c] | None => [] end).
Proof.
  split.
  - revert w. induction evs as [|ev evs IH]; intros w.
    + constructor.
    + change (effects (run ops (ev :: evs) w))
        with (effects (step ops ev w) ++ effects (run ops evs (world (step ops ev w)))).
      rewrite omap_app, step_candidates.
      specialize (IH (world (step ops ev w))).
      cbn [omap list_omap].
      destruct (gathered ev) as [c|]; [|exact IH].
      destruct (pcLocal (call w)); [destruct (channelRef (refs w))|];
        first [apply sublist_skip, IH | apply sublist_cons, IH].
  - intros c w' Hp. rewrite step_candidates. cbn [gathered].
    destruct (pcLocal (call w')); [|congruence].
    destruct (channelRef (refs w')); reflexivity.
Qed.

End CandidateFacts.


(** * [formatCallDuration] *)

Lemma string_length_append s t :
  String.length (s +:+ t) = String.length s + String.length t.
Proof. induction s as [|c s IH]; simpl; [reflexivity | f_equal; exact IH]. Qed.

(** Two strings with equally long ends are cut at the same place. *)
Lemma append_inj_by_length s1 : forall s2 t1 t2,
  String.length t1 = String.length t2 ->
  s1 +:+ t1 = s2 +:+ t2 -> s1 = s2 /\ t1 = t2.
Proof.
  induction s1 as [|c s1 IH]; intros [|c' s2] t1 t2 Hlen Heq; simpl in Heq.
  - auto.
  - exfalso. apply (f_equal String.length) in Heq.
    rewrite !string_length_append in Heq. simpl in Heq. lia.
  - exfalso. apply (f_equal String.length) in Heq.
    rewrite !string_length_append in Heq. simpl in Heq. lia.
  - injection Heq as -> Heq. destruct (IH _ _ _ Hlen Heq) as [-> ->]. auto.
Qed.

Lemma secondsField_length k :
  k < 60 -> String.length (padStart 2 "0"%char (pretty k)) = 2.
Proof.
  intros Hk.
  assert (H : forallb (fun k => Nat.eqb (String.length (padStart 2 "0"%char (pretty k))) 2)
                      (seq 0 60) = true) by (vm_compute; reflexivity).
  rewrite forallb_forall in H. apply Nat.eqb_eq, H, in_seq. lia.
Qed.

Lemma secondsField_inj a b :
  a < 60 -> b < 60 ->
  padStart 2 "0"%char (pretty a) = padStart 2 "0"%char (pretty b) -> a = b.
Proof.
  intros Ha Hb Heq.
  assert (H : forallb (fun a =>
                forallb (fun b =>
                  implb (String.eqb (padStart 2 "0"%char (pretty a))
                                    (padStart 2 "0"%char (pretty b)))
                        (Nat.eqb a b)) (seq 0 60)) (seq 0 60) = true)
    by (vm_compute; reflexivity).
  rewrite forallb_forall in H.
  specialize (H a). rewrite forallb_forall in H.
  specialize (H ltac:(apply in_seq; lia) b ltac:(apply in_seq; lia)).
  rewrite Heq, String.eqb_refl in H. cbn in H. apply Nat.eqb_eq, H.
Qed.

(** X7. [formatCallDuration] shows different durations differently:
    two numbers of seconds with the same text are equal. *)
Theorem formatCallDuration_tells_durations_apart a b :
  formatCallDuration a = formatCallDuration b -> a = b.
Proof.
  unfold formatCallDuration. cbv zeta. intros Heq.
  assert (Ha : Nat.modulo a 60 < 60) by (apply Nat.mod_upper_bound; lia).
  assert (Hb : Nat.modulo b 60 < 60) by (apply Nat.mod_upper_bound; lia).
  apply append_inj_by_length in Heq as [Hm Hs].
  - apply (inj pretty) in Hm.
    apply (String.app_inj ":") in Hs.
    pose proof (secondsField_inj _ _ Ha Hb Hs) as Hs'.
    pose proof (Nat.div_mod_eq a 60). pose proof (Nat.div_mod_eq b 60). lia.
  - rewrite !string_length_append, !secondsField_length by assumption. reflexivity.
Qed.

(** * [getUserFriendlyError] *)

Section ErrorHandlerFacts.

Import ErrorHandler.

Lemma prefix_append pattern rest : String.prefix pattern (pattern +:+ rest) = true.
Proof.
  induction pattern as [|c pattern IH]; simpl; [destruct rest; reflexivity|].
  destruct (Ascii.ascii_dec c c); [exact IH | contradiction].
Qed.

Lemma includes_prefix pattern s :
  String.prefix pattern s = true -> includes pattern s = true.
Proof. intros H. destruct s; cbn [includes]; rewrite H; reflexivity. Qed.

(** [includes] finds a pattern wherever it stands. *)
Lemma includes_anywhere pattern before rest :
  includes pattern (before +:+ pattern +:+ rest) = true.
Proof.
  induction before as [|c before IH].
  - change (EmptyString +:+ pattern +:+ rest) with (pattern +:+ rest).
    apply includes_prefix, prefix_append.
  - change (String c before +:+ pattern +:+ rest)
      with (String c (before +:+ pattern +:+ rest)).
    cbn [includes]. rewrite IH. apply orb_true_r.
Qed.

Lemma getUserFriendlyError_text_is_listed error :
  In (snd (getUserFriendlyError error)) userMessages.
Proof.
  unfold getUserFriendlyError, userMessages. cbn [snd].
  repeat match goal with
         | |- context [if ?b then _ else _] => destruct b
         end; cbn; auto 10.
Qed.

(** X8. For an error that is null or undefined, or whose message is
    absent or a string, [getUserFriendlyError] logs the error once under
    [[Error Details]] and returns one of seven fixed texts, whatever the
    code and the text of the message are; for an error with one of the
    four known codes the text returned does not depend on the message. *)
Theorem getUserFriendlyError_is_sanitized error :
  fst (getUserFriendlyError error) = ["[Error Details]"] /\
  In (snd (getUserFriendlyError error)) userMessages /\
  (forall c m m',
     In c knownCodes ->
     snd (getUserFriendlyError (Some (mkError (Some c) m))) =
     snd (getUserFriendlyError (Some (mkError (Some c) m')))).
Proof.
  split; [reflexivity|]. split.
  - apply getUserFriendlyError_text_is_listed.
  - intros c m m' Hc. cbn in Hc.
    destruct Hc as [<-|[<-|[<-|[<-|[]]]]]; reflexivity.
Qed.

(** X9. An error whose code is none of the four known ones and whose
    message contains [row-level security] or [RLS] anywhere is reported as
    access denied. *)
Theorem row_level_security_is_reported_as_denied c before rest :
  ~ In c (map Some knownCodes) ->
  snd (getUserFriendlyError
         (Some (mkError c (Some (before +:+ "row-level security" +:+ rest))))) =
    "Отказано в доступе" /\
  snd (getUserFriendlyError (Some (mkError c (Some (before +:+ "RLS" +:+ rest))))) =
    "Отказано в доступе".
Proof.
  intros Hc.
  assert (Hno : forall k, In k knownCodes ->
            codeIs (Some (mkError c (Some (before +:+ "RLS" +:+ rest)))) k = false /\
            codeIs (Some (mkError c (Some (before +:+ "row-level security" +:+ rest)))) k
              = false).
  { intros k Hk. unfold codeIs. cbn. destruct c as [c'|]; [|auto].
    destruct (String.eqb c' k) eqn:E; [|auto].
    apply String.eqb_eq in E. subst. exfalso. apply Hc.
    apply in_map. exact Hk. }
  unfold getUserFriendlyError. cbn [snd].
  destruct (Hno "23505") as [-> ->]; [cbn; auto|].
  destruct (Hno "23503") as [-> ->]; [cbn; auto|].
  destruct (Hno "PGRST301") as [-> ->]; [cbn; auto 6|].
  destruct (Hno "42P01") as [-> ->]; [cbn; auto 6|].
  unfold messageIncludes. cbn [message].
  rewrite !includes_anywhere. rewrite orb_true_r. cbn. auto.
Qed.

End ErrorHandlerFacts.


(** * ChatRequests: accepting, rejecting, cancelling *)

Section RequestFacts.

Import ErrorHandler ChatRequests.

Variable db : Backend.

Lemma toastError_shows_a_safe_text error :
  exists text,
    In text userMessages /\
    toastError error = ([ConsoleErr "[Error Details]"; ToastError text], inl tt).
Proof.
  exists (snd (getUserFriendlyError error)). split.
  - apply getUserFriendlyError_text_is_listed.
  - reflexivity.
Qed.

(** X10. [acceptRequest] never throws, whatever the two database calls
    answer. It sets the loading flag first and clears it last, so the flag
    is false afterwards. It always calls [create_chat_with_members] and
    updates the request's status only when that call succeeded. It calls
    [onRequestAccepted] once and shows the success toast exactly when both
    calls succeeded; otherwise it shows one error toast with one of the
    fixed texts of [getUserFriendlyError] and does not call
    [onRequestAccepted]. *)
Theorem acceptRequest_reports_success_only_when_both_calls_succeed requestId senderId :
  let created := rpcCreateChatWithMembers db senderId false in
  let updated := updateRequestStatus db requestId "accepted" in
  let actions := fst (acceptRequest db requestId senderId) in
  snd (acceptRequest db requestId senderId) = inl tt /\
  List.hd OnRequestAccepted actions = SetLoading true /\
  List.last actions OnRequestAccepted = SetLoading false /\
  (forall before, loadingAfter before actions = false) /\
  List.filter isDatabaseCall actions =
    Rpc senderId false ::
    (if succeeded created then [UpdateStatus requestId "accepted"] else []) /\
  List.filter isAccepted actions =
    (if succeeded created && succeeded updated then [OnRequestAccepted] else []) /\
  (exists text,
     List.filter isToast actions =
       [if succeeded created && succeeded updated
        then ToastSuccess "Запрос принят, чат создан!"
        else ToastError text] /\
     In text userMessages).
Proof.
  intros created updated actions. subst created updated actions.
  unfold acceptRequest.
  destruct (rpcCreateChatWithMembers db senderId false) as [[e1|]|r1];
    [| destruct (updateRequestStatus db requestId "accepted") as [[e2|]|r2] |].
  all: unfold tryCatchFinally, bind, await, throwIf, emit, ret, throw; cbn.
  all: repeat split; try reflexivity.
  all: try (exists (snd (getUserFriendlyError (Some e1)))).
  all: try (exists (snd (getUserFriendlyError (Some e2)))).
  all: try (exists (snd (getUserFriendlyError r1))).
  all: try (exists (snd (getUserFriendlyError r2))).
  all: try (exists "Ресурс не найден").
  all: try (split; [reflexivity | first [apply getUserFriendlyError_text_is_listed
                                        | cbn; auto 10]]).
Qed.

(** X11. [rejectRequest] and [cancelRequest] never throw. Each makes
    exactly one database call (the status update to [rejected], the
    deletion), leaves the loading flag false and shows exactly one toast:
    the success text when the call resolved without an error, otherwise
    one of the fixed texts of [getUserFriendlyError]. *)
Theorem reject_and_cancel_make_one_call_and_show_one_toast requestId :
  (let answer := updateRequestStatus db requestId "rejected" in
   let actions := fst (rejectRequest db requestId) in
   snd (rejectRequest db requestId) = inl tt /\
   (forall before, loadingAfter before actions = false) /\
   List.filter isDatabaseCall actions = [UpdateStatus requestId "rejected"] /\
   exists text,
     List.filter isToast actions =
       [if succeeded answer then ToastSuccess "Запрос отклонен" else ToastError text] /\
     In text userMessages) /\
  (let answer := deleteRequest db requestId in
   let actions := fst (cancelRequest db requestId) in
   snd (cancelRequest db requestId) = inl tt /\
   (forall before, loadingAfter before actions = false) /\
   List.filter isDatabaseCall actions = [Delete requestId] /\
   exists text,
     List.filter isToast actions =
       [if succeeded answer then ToastSuccess "Запрос отменен" else ToastError text] /\
     In text userMessages).
Proof.
  split; cbv zeta.
  - unfold rejectRequest.
    destruct (updateRequestStatus db requestId "rejected") as [[e|]|r].
    all: unfold tryCatchFinally, bind, await, throwIf, emit, ret, throw; cbn.
    all: (split; [reflexivity|]); (split; [reflexivity|]); (split; [reflexivity|]).
    + exists (snd (getUserFriendlyError (Some e))).
      split; [reflexivity | apply getUserFriendlyError_text_is_listed].
    + exists "Ресурс не найден". split; [reflexivity | cbn; auto 10].
    + exists (snd (getUserFriendlyError r)).
      split; [reflexivity | apply getUserFriendlyError_text_is_listed].
  - unfold cancelRequest.
    destruct (deleteRequest db requestId) as [[e|]|r].
    all: unfold tryCatchFinally, bind, await, throwIf, emit, ret, throw; cbn.
    all: (split; [reflexivity|]); (split; [reflexivity|]); (split; [reflexivity|]).
    + exists (snd (getUserFriendlyError (Some e))).
      split; [reflexivity | apply getUserFriendlyError_text_is_listed].
    + exists "Ресурс не найден". split; [reflexivity | cbn; auto 10].
    + exists (snd (getUserFriendlyError r)).
      split; [reflexivity | apply getUserFriendlyError_text_is_listed].
Qed.

End RequestFacts.

(** ** The further properties on concrete calls *)

Lemma every_send_is_addressed_to_the_peer_witness :
  let w := mounted (alice true) [] in
  let evs := connecting ++ [IceStateChange IceFailed] in
  channelRef (refs w) = None /\
  channelLocal (call w) = None /\
  Forall (wellAddressed (props w)) (effects (run rtcOps evs w)).
Proof.
  intros w evs.
  assert (H1 : channelRef (refs w) = None) by reflexivity.
  assert (H2 : channelLocal (call w) = None) by reflexivity.
  exact (conj H1 (conj H2 (every_send_is_addressed_to_the_peer rtcOps evs w H1 H2))).
Defined.

(** A Responder hangs up right after the subscription is confirmed. *)
Lemma nothing_is_sent_before_the_subscription_is_confirmed_witness :
  let w := mounted (alice false) [] in
  let evs := subscribing ++ [ClickEndCall] in
  let hangup := ChannelSend "audio-call-chat-1" (mkPayload "alice" "bob" EndCall []) true in
  let pre :=
    [ConsoleLog "AudioCall opened, isInitiator:";
     ConsoleLog "Initializing audio call, requesting microphone access...";
     GetUserMedia;
     ConsoleLog "Microphone access granted, got stream:";
     NewPeerConnection 0;
     ConsoleLog "PeerConnection created";
     ConsoleLog "Adding audio track";
     PcInvoke 0 (AddTrack microphone) true;
     Subscribe "audio-call-chat-1";
     ConsoleLog "Channel subscription status: SUBSCRIBED";
     ConsoleLog "Sending signaling message: end-call"] in
  let post :=
    [TrackStop 0 0; PcInvoke 0 Close true; RemoveChannel "audio-call-chat-1"; OnClose] in
  channelRef (refs w) = None /\
  effects (run rtcOps evs w) = pre ++ hangup :: post /\
  isSend hangup = true /\
  In subscribedLog pre.
Proof.
  intros w evs hangup pre post.
  assert (H1 : channelRef (refs w) = None) by reflexivity.
  assert (H2 : effects (run rtcOps evs w) = pre ++ hangup :: post)
    by (vm_compute; reflexivity).
  assert (H3 : isSend hangup = true) by reflexivity.
  refine (conj H1 (conj H2 (conj H3 _))).
  exact (nothing_is_sent_before_the_subscription_is_confirmed rtcOps evs w H1
           pre hangup post H2 H3).
Defined.

(** The microphone is refused; the user then presses the end-call button
    and the dialog closes. *)
Lemma refused_microphone_starts_nothing_witness :
  let w := mounted (alice true) [] in
  ~ In Opened [ClickEndCall; Closed] /\
  stage (call w) = NotStarted /\
  pcLocal (call w) = None /\
  channelLocal (call w) = None /\
  channelRef (refs w) = None /\
  exists rest,
    effects (run rtcOps (Opened :: MediaDenied :: [ClickEndCall; Closed]) w) =
      [ConsoleLog "AudioCall opened, isInitiator:";
       ConsoleLog "Initializing audio call, requesting microphone access...";
       GetUserMedia;
       ConsoleError "Error initializing call:";
       ShowToast ToastMicrophoneDenied;
       OnClose] ++ rest /\
    Forall (fun e => startsNothing e = true) rest.
Proof.
  intros w.
  assert (H1 : stage (call w) = NotStarted) by reflexivity.
  assert (H2 : pcLocal (call w) = None) by reflexivity.
  assert (H3 : channelLocal (call w) = None) by reflexivity.
  assert (H4 : channelRef (refs w) = None) by reflexivity.
  assert (H0 : ~ In Opened [ClickEndCall; Closed]) by (simpl; intuition discriminate).
  exact (conj H0 (conj H1 (conj H2 (conj H3 (conj H4
           (refused_microphone_starts_nothing rtcOps [ClickEndCall; Closed] w
              H0 H1 H2 H3 H4)))))).
Defined.

(** A Responder receives the Offer once subscribed. *)
Lemma answer_is_sent_only_after_negotiation_witness :
  let w := world (run rtcOps subscribing (mounted (alice false) [])) in
  let x := mkRtcPc [microphone] None None [] false in
  let d := mkDescription "offer" "remote-offer" in
  let o := onSignaling rtcOps 0 (closure (call w)) bobOffer w in
  to bobOffer = currentUserId (props w) /\
  message bobOffer = Offer d /\
  pcs (browser w) !! 0 = Some x /\
  value o = Some tt /\
  state (world o) = state w.
Proof.
  intros w x d o.
  assert (H1 : to bobOffer = currentUserId (props w)) by reflexivity.
  assert (H2 : message bobOffer = Offer d) by reflexivity.
  assert (H3 : pcs (browser w) !! 0 = Some x) by reflexivity.
  pose proof (answer_is_sent_only_after_negotiation rtcOps 0 (closure (call w))
                bobOffer d w x H1 H2 H3) as H.
  cbv zeta in H.
  exact (conj H1 (conj H2 (conj H3 (conj (proj1 H) (proj1 (proj2 H)))))).
Defined.

(** The end-call button of a connected call: the closure holds the stream. *)
Lemma cleanup_releases_what_its_closure_holds_witness :
  let w := world (run rtcOps connecting (mounted (alice true) [])) in
  let o := cleanup rtcOps (state w) w in
  localStream (state w) = Some 0 /\
  streams (browser w) !! 0 = Some [microphone] /\
  streams (browser (world o)) !! 0 = Some (map stopTrack [microphone]).
Proof.
  intros w o.
  assert (H1 : localStream (state w) = Some 0) by (vm_compute; reflexivity).
  assert (H2 : streams (browser w) !! 0 = Some [microphone]) by (vm_compute; reflexivity).
  pose proof (cleanup_releases_what_its_closure_holds rtcOps (state w) w) as H.
  cbv zeta in H.
  destruct H as (_ & _ & _ & _ & _ & _ & _ & _ & _ & Hs & _).
  exact (conj H1 (conj H2 (proj1 (Hs 0 [microphone] H1 H2)))).
Defined.

Lemma at_most_one_interval_runs_witness :
  let o := run rtcOps connecting (mounted (alice true) []) in
  In 0 (liveTimers [] (effects o)) /\
  callTimerRef (refs (world o)) = Some 0.
Proof.
  intros o.
  assert (H1 : In 0 (liveTimers [] (effects o))) by (vm_compute; left; reflexivity).
  pose proof (at_most_one_interval_runs rtcOps connecting (mounted (alice true) [])) as H.
  cbv zeta in H.
  exact (conj H1 (proj1 H 0 H1)).
Defined.

Lemma formatCallDuration_tells_durations_apart_witness :
  formatCallDuration 75 = formatCallDuration (60 + 15) /\ 75 = 60 + 15.
Proof.
  assert (H1 : formatCallDuration 75 = formatCallDuration (60 + 15)) by reflexivity.
  exact (conj H1 (formatCallDuration_tells_durations_apart 75 (60 + 15) H1)).
Defined.

Lemma getUserFriendlyError_is_sanitized_witness :
  In "23505" ErrorHandler.knownCodes /\
  snd (ErrorHandler.getUserFriendlyError
         (Some (ErrorHandler.mkError (Some "23505") (Some "JWT expired")))) =
  snd (ErrorHandler.getUserFriendlyError
         (Some (ErrorHandler.mkError (Some "23505") None))).
Proof.
  assert (H1 : In "23505" ErrorHandler.knownCodes) by (left; reflexivity).
  exact (conj H1
           (proj2 (proj2 (getUserFriendlyError_is_sanitized None))
              "23505" (Some "JWT expired") None H1)).
Defined.

Lemma row_level_security_is_reported_as_denied_witness :
  ~ In (Some "XX000") (map Some ErrorHandler.knownCodes) /\
  snd (ErrorHandler.getUserFriendlyError
         (Some (ErrorHandler.mkError (Some "XX000")
                  (Some ("new row violates " +:+ "row-level security" +:+
                         " policy for table")))))
    = "Отказано в доступе".
Proof.
  assert (H1 : ~ In (Some "XX000") (map Some ErrorHandler.knownCodes))
    by (simpl; intuition discriminate).
  exact (conj H1
           (proj1 (row_level_security_is_reported_as_denied (Some "XX000")
                     "new row violates " " policy for table" H1))).
Defined.

(** The dialog of a connected call is closed. *)
Lemma closing_notifies_nobody_witness :
  let w := world (run rtcOps connecting (mounted (alice true) [])) in
  let o := step rtcOps Closed w in
  stage (call w) <> NotStarted /\
  callStatus (state (world o)) = Ended /\
  channelRef (refs (world o)) = None.
Proof.
  intros w o.
  assert (H1 : stage (call w) <> NotStarted) by (vm_compute; discriminate).
  pose proof (closing_notifies_nobody rtcOps w) as H.
  cbv zeta in H.
  destruct (proj2 H H1) as (Ha & Hb & _).
  exact (conj H1 (conj Ha Hb)).
Defined.

Lemma granted_stream_goes_to_a_new_connection_witness :
  let w := world (run rtcOps [Opened] (mounted (alice true) [])) in
  let o := step rtcOps (MediaGranted [microphone]) w in
  stage (call w) = AwaitMedia /\
  value o = Some tt /\
  streams (browser (world o)) = streams (browser w) ++ [[microphone]].
Proof.
  intros w o.
  assert (H1 : stage (call w) = AwaitMedia) by (vm_compute; reflexivity).
  pose proof (granted_stream_goes_to_a_new_connection rtcOps [microphone] w H1) as H.
  cbv zeta in H.
  exact (conj H1 (conj (proj1 H) (proj1 (proj2 H)))).
Defined.

Lemma candidates_are_sent_in_the_order_found_witness :
  let w := world (run rtcOps subscribing (mounted (alice true) [])) in
  pcLocal (call w) <> None /\
  omap sentCandidate (effects (step rtcOps (LocalCandidate (Some "candidate-2")) w)) =
    match channelRef (refs w) with Some _ => ["candidate-2"] | None => [] end.
Proof.
  intros w.
  assert (H1 : pcLocal (call w) <> None) by (vm_compute; discriminate).
  exact (conj H1
           (proj2 (candidates_are_sent_in_the_order_found rtcOps [] w)
              "candidate-2" w H1)).
Defined.
